(** * DLinkedList: a doubly linked list with a node pool and a logical window

    A shallow embedding of [src/dlinkedlist.c].  The C module keeps a chain of
    heap cells ([struct node_t]) bounded by [front] and [tail], and a window
    [list_start .. list_end] of the cells that currently hold client elements.

    The embedding keeps the pointer structure of the C code: cells live in a
    node store, a [Node_T] is an address into that store or [NULL], and every
    function threads the store explicitly.  A call that does not return
    normally (a failed [assert], a dereference of [NULL] or of a dangling
    pointer, a signed overflow) yields a [Fail].

    Covered: [DLinkedList_new], the accessors, [DLinkedList_set],
    [DLinkedList_append], [DLinkedList_prepend], the three removal entry
    points, and the helpers [Node_new], [malloc_hint], [search] and
    [split_search]; then the destructor [DLinkedList_free] with [Node_free]
    and the uncalled [remove_node], over a store that records the released
    cells.  The debugging [print] only writes to [stderr] and is left out. *)

From stdpp Require Import list numbers strings.

Local Open Scope Z_scope.

(** ** Outcomes of a call *)

Inductive fault : Set :=
  | AssertionFailed   (* an [assert] of the source does not hold *)
  | InvalidPointer    (* [NULL] or an unallocated address is dereferenced *)
  | SignedOverflow.   (* [++] on an [int] equal to [INT_MAX] *)

Inductive result (T : Type) : Type :=
  | Ok (t : T)
  | Fail (f : fault).
Arguments Ok {T} t.
Arguments Fail {T} f.

Definition bind {T U : Type} (m : result T) (k : T -> result U) : result U :=
  match m with
  | Ok t => k t
  | Fail f => Fail f
  end.

Notation "'do' x <- m ; k" := (bind m (fun x => k))
  (at level 10, x pattern, m at level 100, k at level 200).

Definition assert (c : bool) : result unit :=
  if c then Ok tt else Fail AssertionFailed.

(** [INT_MAX] of <limits.h>, for the 32-bit [int] of the usual ABIs. *)
Definition INT_MAX : Z := 2147483647.

(** [x++] on an [int]: signed overflow is undefined in C. *)
Definition incr (x : Z) : result Z :=
  if x <? INT_MAX then Ok (x + 1) else Fail SignedOverflow.

Section DLinkedList.

(** The payload objects the client's [void *] elements point to. *)
Context {A : Type}.

(** ** Representation *)

(** [void *]: [None] is [NULL]. *)
Definition void_p : Type := option A.

(** [Node_T]: the address of a cell in the node store; [None] is [NULL]. *)
Definition Node_T : Type := option nat.

Record node_t : Type := mk_node {
  elem : void_p;
  next : Node_T;
  prev : Node_T
}.

(** [struct dlinkedlist_t], together with the store of the cells that
    [malloc] has handed out ([nodes]): the cell at address [a] is
    [nodes !! a], and [malloc] returns the first unused address. *)
Record dlinkedlist_t : Type := mk_list {
  nodes : list node_t;
  front : Node_T;
  tail : Node_T;
  list_start : Node_T;
  list_end : Node_T;
  capacity : Z;
  size : Z
}.

Definition set_elem (e : void_p) (n : node_t) : node_t :=
  {| elem := e; next := next n; prev := prev n |}.
Definition set_next (p : Node_T) (n : node_t) : node_t :=
  {| elem := elem n; next := p; prev := prev n |}.
Definition set_prev (p : Node_T) (n : node_t) : node_t :=
  {| elem := elem n; next := next n; prev := p |}.

(** [*p] as an rvalue. *)
Definition load (m : list node_t) (p : Node_T) : result node_t :=
  match p with
  | None => Fail InvalidPointer
  | Some a =>
      match m !! a with
      | Some n => Ok n
      | None => Fail InvalidPointer
      end
  end.

(** [p->field = v], as an update [f] of the cell at [p]. *)
Definition modify (m : list node_t) (p : Node_T) (f : node_t -> node_t)
  : result (list node_t) :=
  match p with
  | None => Fail InvalidPointer
  | Some a =>
      match m !! a with
      | Some n => Ok (<[a := f n]> m)
      | None => Fail InvalidPointer
      end
  end.

(** ** Private helpers *)

(** [Node_new(prev, next, elem)]: allocation is taken to succeed (the source
    aborts otherwise); the new cell gets the first unused address. *)
Definition Node_new (m : list node_t) (prev next : Node_T) (elem : void_p)
  : list node_t * Node_T :=
  (m ++ [mk_node elem next prev], Some (length m)).

(** The body of the loop of [malloc_hint], run [n] times:
    [temp = Node_new(NULL, node, NULL); node->prev = temp; node = temp]. *)
Fixpoint malloc_hint_loop (n : nat) (m : list node_t) (node : Node_T)
  : result (list node_t * Node_T) :=
  match n with
  | O => Ok (m, node)
  | S n' =>
      let '(m1, temp) := Node_new m None node None in
      do _ <- assert (bool_decide (temp <> None));
      do m2 <- modify m1 node (set_prev temp);
      malloc_hint_loop n' m2 temp
  end.

(** [malloc_hint(list, hint)]: sets [list->tail] and returns the first cell
    of the chain.  The loop [for (i = hint - 2; i >= 0; i--)] runs
    [hint - 1] times and its body does not read [i]. *)
Definition malloc_hint (dl : dlinkedlist_t) (hint : Z)
  : result (dlinkedlist_t * Node_T) :=
  do _ <- assert (0 <=? hint);
  do _ <- assert (hint <? INT_MAX);
  let '(m, node) := Node_new (nodes dl) None None None in
  do _ <- assert (bool_decide (node <> None));
  let tl := node in
  do r <- (if 1 <? hint
           then malloc_hint_loop (Z.to_nat (hint - 1)) m node
           else Ok (m, node));
  let '(m', node') := r in
  Ok ({| nodes := m'; front := front dl; tail := tl;
         list_start := list_start dl; list_end := list_end dl;
         capacity := capacity dl; size := size dl |}, node').

(** [n] times [node = node->field]. *)
Fixpoint follow (field : node_t -> Node_T) (m : list node_t) (n : nat)
  (node : Node_T) : result Node_T :=
  match n with
  | O => Ok node
  | S n' => do c <- load m node; follow field m n' (field c)
  end.

(** [split_search]: [for (i = 0; i < index; i++)] runs [index] times and
    [for (i = size - 1; i > index; i--)] runs [size - 1 - index] times. *)
Definition split_search (dl : dlinkedlist_t) (index : Z) : result Node_T :=
  do _ <- assert (0 <=? index);
  do _ <- assert (index <? size dl);
  let midpoint := Z.quot (size dl) 2 in
  if index <? midpoint
  then follow next (nodes dl) (Z.to_nat index) (list_start dl)
  else follow prev (nodes dl) (Z.to_nat (size dl - 1 - index))
         (list_end dl).

Definition search (dl : dlinkedlist_t) (index : Z) : result Node_T :=
  do _ <- assert (0 <=? index);
  do _ <- assert (index <? size dl);
  if index =? 0 then Ok (list_start dl)
  else if index =? size dl - 1 then Ok (list_end dl)
  else split_search dl index.

(** ** Public functions

    A container value is always a valid handle, so [assert(list != NULL)]
    holds in every function.  Indices and hints are mathematical integers;
    the functions only compare them with the [int] fields. *)

Definition DLinkedList_new (hint : Z) : result dlinkedlist_t :=
  do _ <- assert (0 <=? hint);
  do _ <- assert (hint <? INT_MAX);
  let hint := if hint =? 0 then hint + 1 else hint in
  let dl := {| nodes := []; front := None; tail := None;
                 list_start := None; list_end := None;
                 capacity := hint; size := 0 |} in
  do r <- malloc_hint dl hint;
  let '(dl, fr) := r in
  Ok {| nodes := nodes dl; front := fr; tail := tail dl;
        list_start := fr; list_end := fr;
        capacity := capacity dl; size := size dl |}.

Definition DLinkedList_length (dl : dlinkedlist_t) : Z := size dl.

Definition DLinkedList_get (dl : dlinkedlist_t) (index : Z) : result void_p :=
  do _ <- assert (0 <=? index);
  do _ <- assert (index <? size dl);
  if size dl =? 0 then Ok None
  else
    do node <- search dl index;
    do _ <- assert (bool_decide (node <> None));
    do c <- load (nodes dl) node;
    Ok (elem c).

Definition DLinkedList_last (dl : dlinkedlist_t) : result void_p :=
  if size dl =? 0 then Ok None
  else do c <- load (nodes dl) (list_end dl); Ok (elem c).

Definition DLinkedList_first (dl : dlinkedlist_t) : result void_p :=
  if size dl =? 0 then Ok None
  else do c <- load (nodes dl) (list_start dl); Ok (elem c).

Definition with_nodes (dl : dlinkedlist_t) (m : list node_t) : dlinkedlist_t :=
  {| nodes := m; front := front dl; tail := tail dl;
     list_start := list_start dl; list_end := list_end dl;
     capacity := capacity dl; size := size dl |}.

Definition DLinkedList_append (dl : dlinkedlist_t) (e : void_p)
  : result dlinkedlist_t :=
  do dl <-
    (if size dl =? 0 then
       do m <- modify (nodes dl) (tail dl) (set_elem e);
       Ok (with_nodes dl m)
     else if size dl =? capacity dl then
       let '(m, node) := Node_new (nodes dl) (tail dl) None e in
       do _ <- assert (bool_decide (node <> None));
       do m <- modify m (tail dl) (set_next node);
       do cap <- incr (capacity dl);
       do c <- load m (list_end dl);
       Ok {| nodes := m; front := front dl; tail := node;
             list_start := list_start dl; list_end := next c;
             capacity := cap; size := size dl |}
     else
       do c <- load (nodes dl) (list_end dl);
       let node := next c in
       do _ <- assert (bool_decide (node <> None));
       do m <- modify (nodes dl) node (set_elem e);
       do c <- load m (list_end dl);
       Ok {| nodes := m; front := front dl; tail := tail dl;
             list_start := list_start dl; list_end := next c;
             capacity := capacity dl; size := size dl |});
  do sz <- incr (size dl);
  Ok {| nodes := nodes dl; front := front dl; tail := tail dl;
        list_start := list_start dl; list_end := list_end dl;
        capacity := capacity dl; size := sz |}.

Definition DLinkedList_prepend (dl : dlinkedlist_t) (e : void_p)
  : result dlinkedlist_t :=
  do dl <-
    (if size dl =? 0 then
       do m <- modify (nodes dl) (front dl) (set_elem e);
       Ok (with_nodes dl m)
     else if size dl =? capacity dl then
       let '(m, node) := Node_new (nodes dl) None (front dl) e in
       do _ <- assert (bool_decide (node <> None));
       do m <- modify m (front dl) (set_prev node);
       do cap <- incr (capacity dl);
       do c <- load m (list_start dl);
       Ok {| nodes := m; front := node; tail := tail dl;
             list_start := prev c; list_end := list_end dl;
             capacity := cap; size := size dl |}
     else
       do c <- load (nodes dl) (list_start dl);
       let node := prev c in
       do _ <- assert (bool_decide (node <> None));
       do m <- modify (nodes dl) node (set_elem e);
       do c <- load m (list_start dl);
       Ok {| nodes := m; front := front dl; tail := tail dl;
             list_start := prev c; list_end := list_end dl;
             capacity := capacity dl; size := size dl |});
  do sz <- incr (size dl);
  Ok {| nodes := nodes dl; front := front dl; tail := tail dl;
        list_start := list_start dl; list_end := list_end dl;
        capacity := capacity dl; size := sz |}.

Definition DLinkedList_set (dl : dlinkedlist_t) (e : void_p) (index : Z)
  : result dlinkedlist_t :=
  do _ <- assert (0 <=? index);
  do _ <- assert (index <=? size dl);
  if index =? size dl then DLinkedList_append dl e
  else
    do node <- search dl index;
    do _ <- assert (bool_decide (node <> None));
    do m <- modify (nodes dl) node (set_elem e);
    Ok (with_nodes dl m).

(** The three removal entry points have empty bodies. *)
Definition DLinkedList_remove (dl : dlinkedlist_t) (index : Z)
  : dlinkedlist_t := dl.
Definition DLinkedList_removehi (dl : dlinkedlist_t) : dlinkedlist_t := dl.
Definition DLinkedList_removelo (dl : dlinkedlist_t) : dlinkedlist_t := dl.

(** ** The public operations as a transition system *)

Inductive op : Type :=
  | Length
  | Get (index : Z)
  | First
  | Last
  | SetAt (e : void_p) (index : Z)
  | Append (e : void_p)
  | Prepend (e : void_p)
  | Remove (index : Z)
  | RemoveHi
  | RemoveLo.

(** One call of a public function; a call that aborts has no successor. *)
Definition exec (o : op) (dl : dlinkedlist_t) : result dlinkedlist_t :=
  match o with
  | Length => let _ := DLinkedList_length dl in Ok dl
  | Get index => do _ <- DLinkedList_get dl index; Ok dl
  | First => do _ <- DLinkedList_first dl; Ok dl
  | Last => do _ <- DLinkedList_last dl; Ok dl
  | SetAt e index => DLinkedList_set dl e index
  | Append e => DLinkedList_append dl e
  | Prepend e => DLinkedList_prepend dl e
  | Remove index => Ok (DLinkedList_remove dl index)
  | RemoveHi => Ok (DLinkedList_removehi dl)
  | RemoveLo => Ok (DLinkedList_removelo dl)
  end.

Fixpoint run (os : list op) (dl : dlinkedlist_t) : result dlinkedlist_t :=
  match os with
  | [] => Ok dl
  | o :: os' => do dl' <- exec o dl; run os' dl'
  end.

(** A run of public calls on a new container. *)
Definition scenario (hint : Z) (os : list op) : result dlinkedlist_t :=
  do dl <- DLinkedList_new hint; run os dl.

Definition append_all (es : list void_p) : list op := Append <$> es.
Definition prepend_all (es : list void_p) : list op := Prepend <$> es.

(** The states a client can bring a container into. *)
Inductive reachable : dlinkedlist_t -> Prop :=
  | reachable_new hint dl :
      DLinkedList_new hint = Ok dl -> reachable dl
  | reachable_step o dl dl' :
      reachable dl -> exec o dl = Ok dl' -> reachable dl'.

(** ** Observing the pool *)

(** The cells met from [p] on by following [field] until [NULL]
    (at most [fuel] of them). *)
Fixpoint chase (field : node_t -> Node_T) (m : list node_t) (fuel : nat)
  (p : Node_T) : list nat :=
  match fuel with
  | O => []
  | S k =>
      match p with
      | None => []
      | Some a =>
          match m !! a with
          | None => []
          | Some c => a :: chase field m k (field c)
          end
      end
  end.

(** All pooled cells, from [front] along [next]. *)
Definition pool_cells (dl : dlinkedlist_t) : list nat :=
  chase next (nodes dl) (S (length (nodes dl))) (front dl).

(** The cells strictly after [list_end], towards [tail]. *)
Definition spares_after (dl : dlinkedlist_t) : list nat :=
  match load (nodes dl) (list_end dl) with
  | Ok c => chase next (nodes dl) (S (length (nodes dl))) (next c)
  | Fail _ => []
  end.

(** The cells strictly before [list_start], towards [front]. *)
Definition spares_before (dl : dlinkedlist_t) : list nat :=
  match load (nodes dl) (list_start dl) with
  | Ok c => chase prev (nodes dl) (S (length (nodes dl))) (prev c)
  | Fail _ => []
  end.

(** ** Contents *)

(** The element of the cell at address [a] ([NULL] when there is none). *)
Definition cell_elem (m : list node_t) (a : nat) : void_p :=
  match m !! a with
  | Some c => elem c
  | None => None
  end.

(** The elements of the cells of a chain, in order. *)
Definition contents (m : list node_t) (chain : list nat) : list void_p :=
  cell_elem m <$> chain.

(** What a client can read back: the elements of the [size] cells met from
    [list_start] on along [next]. *)
Definition to_list (dl : dlinkedlist_t) : list void_p :=
  contents (nodes dl)
    (take (Z.to_nat (size dl))
       (chase next (nodes dl) (S (length (nodes dl))) (list_start dl))).

(** ** Representation invariant *)

(** The cell before position [i] of a chain. *)
Definition before (chain : list nat) (i : nat) : Node_T :=
  match i with O => None | S j => chain !! j end.

(** The cells at the addresses [chain] are linked to each other, in this
    order, in both directions, with [NULL] at both ends. *)
Definition linked (m : list node_t) (chain : list nat) : Prop :=
  NoDup chain /\
  forall i a, chain !! i = Some a ->
    exists c, m !! a = Some c /\ next c = chain !! S i /\ prev c = before chain i.

(** [chain] lists the pool of [dl] from [front] to [tail]; the window starts
    at its first cell and ends at position [size - 1] (position [0] when the
    container is empty).  No cell of an empty container holds an element:
    nothing removes elements, so an empty container is a new one. *)
Record pool (dl : dlinkedlist_t) (chain : list nat) : Prop := {
  pool_linked : linked (nodes dl) chain;
  pool_all : length (nodes dl) = length chain;
  pool_front : front dl = chain !! 0%nat;
  pool_tail : tail dl = chain !! (length chain - 1)%nat;
  pool_start : list_start dl = chain !! 0%nat;
  pool_end : list_end dl = chain !! (Z.to_nat (size dl) - 1)%nat;
  pool_capacity : capacity dl = Z.of_nat (length chain);
  pool_bounds : 1 <= capacity dl <= INT_MAX;
  pool_size : 0 <= size dl <= capacity dl;
  pool_fresh : size dl = 0 -> Forall (fun c => elem c = None) (nodes dl)
}.

(** ** Releasing cells

    [Node_free], [remove_node] and [DLinkedList_free] hand cells back to the
    allocator.  The cells stay in the store; the addresses given to [free]
    are recorded, oldest first, and a released cell must not be read,
    written or released again. *)

Definition check_live (released : list nat) (p : Node_T) : result unit :=
  match p with
  | Some a =>
      if bool_decide (a ∈ released) then Fail InvalidPointer else Ok tt
  | None => Ok tt
  end.

Definition load_live (released : list nat) (m : list node_t) (p : Node_T)
  : result node_t :=
  do _ <- check_live released p; load m p.

Definition modify_live (released : list nat) (m : list node_t) (p : Node_T)
  (f : node_t -> node_t) : result (list node_t) :=
  do _ <- check_live released p; modify m p f.

(** [free(p)]; [free(NULL)] does nothing. *)
Definition release (released : list nat) (m : list node_t) (p : Node_T)
  : result (list nat) :=
  match p with
  | None => Ok released
  | Some a => do _ <- load_live released m p; Ok (released ++ [a])
  end.

(** What the [Node_T *curr] argument of [Node_free] points to: the [front]
    field of the container ([DLinkedList_free] passes [&list->front]) or a
    variable of the caller that holds [p] ([remove_node] passes [&curr]). *)
Inductive node_ref : Type :=
  | FrontField
  | Local (p : Node_T).

Definition set_front (dl : dlinkedlist_t) (p : Node_T) : dlinkedlist_t :=
  {| nodes := nodes dl; front := p; tail := tail dl;
     list_start := list_start dl; list_end := list_end dl;
     capacity := capacity dl; size := size dl |}.
Definition set_list_start (dl : dlinkedlist_t) (p : Node_T) : dlinkedlist_t :=
  {| nodes := nodes dl; front := front dl; tail := tail dl;
     list_start := p; list_end := list_end dl;
     capacity := capacity dl; size := size dl |}.
Definition set_list_end (dl : dlinkedlist_t) (p : Node_T) : dlinkedlist_t :=
  {| nodes := nodes dl; front := front dl; tail := tail dl;
     list_start := list_start dl; list_end := p;
     capacity := capacity dl; size := size dl |}.
Definition set_capacity (dl : dlinkedlist_t) (n : Z) : dlinkedlist_t :=
  {| nodes := nodes dl; front := front dl; tail := tail dl;
     list_start := list_start dl; list_end := list_end dl;
     capacity := n; size := size dl |}.
Definition set_size (dl : dlinkedlist_t) (n : Z) : dlinkedlist_t :=
  {| nodes := nodes dl; front := front dl; tail := tail dl;
     list_start := list_start dl; list_end := list_end dl;
     capacity := capacity dl; size := n |}.

(** [*curr] *)
Definition deref (dl : dlinkedlist_t) (curr : node_ref) : Node_T :=
  match curr with
  | FrontField => front dl
  | Local p => p
  end.

(** [*curr = p] *)
Definition assign (dl : dlinkedlist_t) (curr : node_ref) (p : Node_T)
  : dlinkedlist_t * node_ref :=
  match curr with
  | FrontField => (set_front dl p, FrontField)
  | Local _ => (dl, Local p)
  end.

(** [temp->elem = NULL; temp->next = NULL; temp->prev = NULL] *)
Definition scrub (_ : node_t) : node_t := mk_node None None None.

(** [Node_free(list, curr)]: returns the container, the released addresses
    and what [curr] points to afterwards.  [capacity--] cannot overflow
    after [assert(list->capacity > 0)]. *)
Definition Node_free (dl : dlinkedlist_t) (released : list nat)
  (curr : node_ref) : result (dlinkedlist_t * list nat * node_ref) :=
  do _ <- assert (bool_decide (deref dl curr <> None));
  do _ <- assert (0 <? capacity dl);
  let temp := deref dl curr in
  do st <-
    (if 1 <? capacity dl then
       do st <-
         (if bool_decide (temp = front dl) then
            do ct <- load_live released (nodes dl) temp;
            do m <- modify_live released (nodes dl) (next ct) (set_prev None);
            do ct <- load_live released m temp;
            Ok (assign (with_nodes dl m) curr (next ct))
          else if bool_decide (temp = tail dl) then
            do ct <- load_live released (nodes dl) temp;
            do m <- modify_live released (nodes dl) (prev ct) (set_next None);
            do ct <- load_live released m temp;
            Ok (assign (with_nodes dl m) curr (prev ct))
          else
            do c <- load_live released (nodes dl) (deref dl curr);
            do m <- modify_live released (nodes dl) (next c)
                      (set_prev (prev c));
            do c <- load_live released m (deref dl curr);
            do n <- load_live released m (next c);
            do m <- modify_live released m (prev n) (set_next (next c));
            Ok (with_nodes dl m, curr));
       let '(dl, curr) := st in
       do dl <-
         (if bool_decide (temp = list_start dl) then
            do ct <- load_live released (nodes dl) temp;
            Ok (set_list_start dl (next ct))
          else Ok dl);
       do dl <-
         (if bool_decide (temp = list_end dl) then
            do ct <- load_live released (nodes dl) temp;
            Ok (set_list_end dl (prev ct))
          else Ok dl);
       Ok (dl, curr)
     else Ok (dl, curr));
  let '(dl, curr) := st in
  let dl := set_capacity dl (capacity dl - 1) in
  do m <- modify_live released (nodes dl) temp scrub;
  do released <- release released m temp;
  Ok (with_nodes dl m, released, curr).

(** [remove_node(list, curr)]; [size--] cannot overflow after
    [assert(list->size > 0)]. *)
Definition remove_node (dl : dlinkedlist_t) (released : list nat)
  (curr : Node_T) : result (dlinkedlist_t * list nat) :=
  do _ <- assert (bool_decide (curr <> None));
  do _ <- assert (0 <? size dl);
  do st <-
    (if bool_decide (curr = list_start dl) then
       do c <- load_live released (nodes dl) curr;
       Ok (set_list_start dl (next c), released)
     else if bool_decide (curr = list_end dl) then
       do c <- load_live released (nodes dl) curr;
       Ok (set_list_end dl (prev c), released)
     else
       do r <- Node_free dl released (Local curr);
       let '(dl, released, _) := r in
       Ok (dl, released));
  let '(dl, released) := st in
  Ok (set_size dl (size dl - 1), released).

(** The loop of [DLinkedList_free]:
    [while (list->capacity > 0) Node_free(list, &list->front)].
    [None]: the iterations allowed by [fuel] did not end the loop. *)
Fixpoint free_loop (fuel : nat) (dl : dlinkedlist_t) (released : list nat)
  : option (result (dlinkedlist_t * list nat)) :=
  if 0 <? capacity dl then
    match fuel with
    | O => None
    | S fuel' =>
        match Node_free dl released FrontField with
        | Ok (dl', released', _) => free_loop fuel' dl' released'
        | Fail f => Some (Fail f)
        end
    end
  else Some (Ok (dl, released)).

(** [DLinkedList_free(&list)], where [released] are the cells released
    before the call: after the loop the four pointers are set to [NULL] and
    the structure itself is released; what remains is the store and the
    addresses released, in the order of release. *)
Definition DLinkedList_free (fuel : nat) (dl : dlinkedlist_t)
  (released : list nat) : option (result (list node_t * list nat)) :=
  match free_loop fuel dl released with
  | None => None
  | Some (Fail f) => Some (Fail f)
  | Some (Ok (dl', released')) => Some (Ok (nodes dl', released'))
  end.

End DLinkedList.

Arguments node_t A : clear implicits.
Arguments dlinkedlist_t A : clear implicits.
Arguments void_p A : clear implicits.
Arguments op A : clear implicits.

(** ** Scenarios

    Concrete runs over string payloads. *)

(** The element stored in the cell [p] points to. *)
Definition elem_at (dl : dlinkedlist_t string) (p : Node_T)
  : result (void_p string) :=
  do c <- load (nodes dl) p; Ok (elem c).

(** Hint [2], then append "x", "y", "z" and prepend "w". *)
Definition mixed : list (op string) :=
  [Append (Some "x"); Append (Some "y"); Append (Some "z");
   Prepend (Some "w")]%string.

(** The state [mixed] ends in. *)
Definition mixed_state : dlinkedlist_t string :=
  {| nodes :=
       [ {| elem := Some "y"; next := Some 2%nat; prev := Some 1%nat |};
         {| elem := None; next := Some 0%nat; prev := Some 3%nat |};
         {| elem := Some "z"; next := None; prev := Some 0%nat |};
         {| elem := Some "w"; next := Some 1%nat; prev := None |} ]%string;
     front := Some 3%nat; tail := Some 2%nat;
     list_start := Some 3%nat; list_end := Some 2%nat;
     capacity := 4; size := 4 |}.

(** [mixed_state] after one more append, of "v". *)
Definition mixed_then_v : dlinkedlist_t string :=
  {| nodes :=
       [ {| elem := Some "y"; next := Some 2%nat; prev := Some 1%nat |};
         {| elem := None; next := Some 0%nat; prev := Some 3%nat |};
         {| elem := Some "z"; next := Some 4%nat; prev := Some 0%nat |};
         {| elem := Some "w"; next := Some 1%nat; prev := None |};
         {| elem := Some "v"; next := None; prev := Some 2%nat |} ]%string;
     front := Some 3%nat; tail := Some 4%nat;
     list_start := Some 3%nat; list_end := Some 4%nat;
     capacity := 5; size := 5 |}.

(** The state [DLinkedList_new(1)] returns. *)
Definition fresh_1 : dlinkedlist_t string :=
  {| nodes := [ {| elem := None; next := None; prev := None |} ];
     front := Some 0%nat; tail := Some 0%nat;
     list_start := Some 0%nat; list_end := Some 0%nat;
     capacity := 1; size := 0 |}.

(** * Verification *)

(** Closes a goal [run = outcome] between closed terms by evaluation. *)
Ltac evaluate := vm_compute; reflexivity.

Section Proofs.

Context {A : Type}.
Implicit Types (m : list (node_t A)) (chain : list nat) (dl : dlinkedlist_t A).
Implicit Types (e : void_p A) (es : list (void_p A)).

Lemma linked_lt m chain i a :
  linked m chain -> chain !! i = Some a -> (a < length m)%nat.
Proof.
  intros [_ H] Hi. destruct (H i a Hi) as (c & Hc & _).
  by eapply lookup_lt_Some.
Qed.

Lemma linked_fresh m chain : linked m chain -> length m ∉ chain.
Proof.
  intros H Hin. apply list_elem_of_lookup in Hin as [i Hi].
  pose proof (linked_lt _ _ _ _ H Hi). lia.
Qed.

Lemma linked_set_elem m chain a c e :
  linked m chain -> m !! a = Some c -> linked (<[a := set_elem e c]> m) chain.
Proof.
  intros [Hnd H] Ha. split; [done|]. intros i b Hi.
  destruct (H i b Hi) as (cb & Hb & Hn & Hp).
  destruct (decide (a = b)) as [->|Hne].
  - exists (set_elem e c). rewrite list_lookup_insert_eq by (by eapply lookup_lt_Some).
    assert (cb = c) by congruence. subst. done.
  - exists cb. by rewrite list_lookup_insert_ne.
Qed.

Lemma linked_snoc m chain t ct e :
  linked m chain -> chain !! (length chain - 1)%nat = Some t -> m !! t = Some ct ->
  linked (<[t := set_next (Some (length m)) ct]> (m ++ [mk_node e None (Some t)]))
         (chain ++ [length m]).
Proof.
  intros Hl Ht Hct. pose proof (linked_fresh _ _ Hl) as Hfresh.
  destruct Hl as [Hnd H].
  assert (Hlen : (0 < length chain)%nat).
  { apply lookup_lt_Some in Ht. lia. }
  assert (Htm : (t < length m)%nat) by (by eapply lookup_lt_Some).
  split.
  - apply NoDup_app. split_and!; [done| |apply NoDup_singleton].
    intros x Hx Hx'. apply list_elem_of_singleton in Hx'. by subst.
  - intros i a Hi.
    destruct (decide (i < length chain)%nat) as [Hlt|Hge].
    + rewrite lookup_app_l in Hi by done.
      destruct (H i a Hi) as (c & Hc & Hn & Hp).
      assert (Hbef : before (chain ++ [length m]) i = before chain i).
      { destruct i; [done|]. simpl. rewrite lookup_app_l by lia. done. }
      rewrite Hbef.
      destruct (decide (a = t)) as [->|Hne].
      * assert (i = (length chain - 1)%nat) as ->.
        { eapply NoDup_lookup; eauto. }
        exists (set_next (Some (length m)) ct).
        rewrite list_lookup_insert_eq by (rewrite length_app; simpl; lia).
        split; [done|]. simpl. split.
        -- replace (S (length chain - 1)) with (length chain) by lia.
           rewrite lookup_app_r by lia. by rewrite Nat.sub_diag.
        -- congruence.
      * exists c. rewrite list_lookup_insert_ne by done.
        rewrite lookup_app_l by (by eapply lookup_lt_Some).
        split; [done|]. split; [|done].
        rewrite Hn. destruct (decide (S i < length chain)%nat).
        -- by rewrite lookup_app_l.
        -- exfalso. assert (i = (length chain - 1)%nat) as -> by lia. congruence.
    + assert (i = length chain) as ->.
      { apply lookup_lt_Some in Hi. rewrite length_app in Hi. simpl in Hi. lia. }
      rewrite lookup_app_r, Nat.sub_diag in Hi by lia. simpl in Hi.
      injection Hi as <-.
      exists (mk_node e None (Some t)).
      rewrite list_lookup_insert_ne by lia.
      rewrite lookup_app_r, Nat.sub_diag by lia. split; [done|]. simpl. split.
      * symmetry. apply lookup_ge_None. rewrite length_app. simpl. lia.
      * destruct (length chain) as [|k] eqn:E; [lia|]. simpl.
        rewrite lookup_app_l by lia. rewrite <- Ht. f_equal. lia.
Qed.

Lemma linked_cons m chain f cf e :
  linked m chain -> chain !! 0%nat = Some f -> m !! f = Some cf ->
  linked (<[f := set_prev (Some (length m)) cf]> (m ++ [mk_node e (Some f) None]))
         (length m :: chain).
Proof.
  intros Hl Hf Hcf. pose proof (linked_fresh _ _ Hl) as Hfresh.
  destruct Hl as [Hnd H].
  assert (Hfm : (f < length m)%nat) by (by eapply lookup_lt_Some).
  split.
  - by apply NoDup_cons.
  - intros [|i] a Hi; simpl in Hi.
    + injection Hi as <-. exists (mk_node e (Some f) None).
      rewrite list_lookup_insert_ne by lia.
      rewrite lookup_app_r, Nat.sub_diag by lia. done.
    + destruct (H i a Hi) as (c & Hc & Hn & Hp).
      destruct (decide (a = f)) as [->|Hne].
      * assert (i = 0%nat) as -> by (eapply NoDup_lookup; eauto).
        exists (set_prev (Some (length m)) cf).
        rewrite list_lookup_insert_eq by (rewrite length_app; simpl; lia).
        split; [done|]. simpl. split; [congruence|done].
      * exists c. rewrite list_lookup_insert_ne by done.
        rewrite lookup_app_l by (by eapply lookup_lt_Some).
        split; [done|]. split; [done|]. simpl.
        destruct i as [|j]; [congruence|]. done.
Qed.

Lemma follow_next m chain n i :
  linked m chain -> (i + n <= length chain)%nat ->
  follow next m n (chain !! i) = Ok (chain !! (i + n)%nat).
Proof.
  intros Hl. revert i. induction n as [|n IH]; intros i Hle; simpl.
  - by rewrite Nat.add_0_r.
  - destruct (lookup_lt_is_Some_2 chain i) as [a Ha]; [lia|].
    destruct Hl as [Hnd H]. destruct (H i a Ha) as (c & Hc & Hn & _).
    rewrite Ha. simpl. rewrite Hc. simpl. rewrite Hn.
    rewrite IH by lia. do 2 f_equal. lia.
Qed.

Lemma follow_prev m chain n i :
  linked m chain -> (i < length chain)%nat -> (n <= i)%nat ->
  follow prev m n (chain !! i) = Ok (chain !! (i - n)%nat).
Proof.
  intros Hl. revert i. induction n as [|n IH]; intros i Hlt Hle; simpl.
  - by rewrite Nat.sub_0_r.
  - destruct (lookup_lt_is_Some_2 chain i) as [a Ha]; [lia|].
    pose proof Hl as [Hnd H]. destruct (H i a Ha) as (c & Hc & _ & Hp).
    rewrite Ha. simpl. rewrite Hc. simpl. rewrite Hp.
    destruct i as [|j]; [lia|]. simpl.
    rewrite IH by lia. done.
Qed.

Lemma malloc_hint_loop_spec n m chain f :
  linked m chain -> chain !! 0%nat = Some f ->
  Forall (fun c => elem c = None) m ->
  exists m',
    malloc_hint_loop n m (Some f)
      = Ok (m', (reverse (seq (length m) n) ++ chain) !! 0%nat) /\
    linked m' (reverse (seq (length m) n) ++ chain) /\
    length m' = (n + length m)%nat /\
    Forall (fun c => elem c = None) m'.
Proof.
  revert m chain f. induction n as [|n IH]; intros m chain f Hl Hf Hnull.
  - exists m. simpl. rewrite Hf. done.
  - pose proof Hl as [_ H]. destruct (H _ _ Hf) as (cf & Hcf & _).
    simpl. rewrite lookup_app_l by (by eapply lookup_lt_Some). rewrite Hcf. simpl.
    destruct (IH (<[f := set_prev (Some (length m)) cf]>
                    (m ++ [mk_node None (Some f) None]))
                 (length m :: chain) (length m)) as (m' & Hrun & Hl' & Hlen & Hnull').
    + by apply linked_cons.
    + done.
    + apply Forall_insert.
      * apply Forall_app. split; [done|]. by repeat constructor.
      * simpl. by eapply (Forall_lookup_1 _ _ _ _ Hnull).
    + rewrite length_insert, length_app in Hrun, Hl', Hlen. simpl in Hrun, Hl', Hlen.
      replace (length m + 1)%nat with (S (length m)) in Hrun, Hl', Hlen by lia.
      rewrite reverse_cons, <- !app_assoc. simpl. exists m'. split_and!; [done|done|lia|done].
Qed.

Lemma DLinkedList_new_spec hint :
  0 <= hint < INT_MAX ->
  exists dl : dlinkedlist_t A,
    DLinkedList_new hint = Ok dl /\
    pool dl (reverse (seq 0 (Z.to_nat (Z.max hint 1)))) /\
    size dl = 0 /\ capacity dl = Z.max hint 1 /\
    Forall (fun c => elem c = None) (nodes dl).
Proof.
  intros Hh. unfold DLinkedList_new, malloc_hint.
  assert ((0 <=? hint) = true) as -> by lia.
  assert ((hint <? INT_MAX) = true) as -> by lia. simpl.
  set (h := if hint =? 0 then hint + 1 else hint).
  assert (Hmax : h = Z.max hint 1).
  { subst h. destruct (Z.eqb_spec hint 0); lia. }
  assert ((0 <=? h) = true) as -> by lia.
  assert ((h <? INT_MAX) = true) as -> by (unfold INT_MAX in *; lia). simpl.
  destruct (malloc_hint_loop_spec (Z.to_nat (h - 1))
              [mk_node (A:=A) None None None] [0%nat] 0%nat)
    as (m' & Hrun & Hl & Hlen & Hnull).
  { split; [apply NoDup_singleton|]. intros [|i] a Hi; [|done].
    injection Hi as <-. by eexists. }
  { done. }
  { by repeat constructor. }
  simpl in Hrun, Hl, Hlen.
  assert (Hchain : reverse (seq 1 (Z.to_nat (h - 1))) ++ [0%nat]
                   = reverse (seq 0 (Z.to_nat (Z.max hint 1)))).
  { replace (Z.to_nat (Z.max hint 1)) with (S (Z.to_nat (h - 1))) by lia.
    simpl. by rewrite reverse_cons. }
  rewrite Hchain in Hrun, Hl.
  assert (Hrun' : forall T (k : _ -> result T),
            bind (if 1 <? h
                  then malloc_hint_loop (Z.to_nat (h - 1))
                         [mk_node (A:=A) None None None] (Some 0%nat)
                  else Ok ([mk_node None None None], Some 0%nat)) k
            = k (m', reverse (seq 0 (Z.to_nat (Z.max hint 1))) !! 0%nat)).
  { intros T k. destruct (Z.ltb_spec 1 h); [by rewrite Hrun|].
    assert (h = 1) as Hh1 by lia. rewrite Hh1 in Hrun.
    exact (f_equal (fun r => bind r k) Hrun). }
  rewrite Hrun'. simpl. eexists. split; [done|].
  set (chain := reverse (seq 0 (Z.to_nat (Z.max hint 1)))) in *.
  assert (Hcl : length chain = Z.to_nat (Z.max hint 1)).
  { subst chain. by rewrite length_reverse, length_seq. }
  split_and!; simpl; try done; try lia.
  split; simpl; try done; try lia.
  rewrite <- Hchain, length_app, length_reverse, length_seq. simpl.
  rewrite lookup_app_r by (rewrite length_reverse, length_seq; lia).
  rewrite length_reverse, length_seq.
  by replace (Z.to_nat (h - 1) + 1 - 1 - Z.to_nat (h - 1))%nat with 0%nat by lia.
Qed.

Lemma load_Some m a c : m !! a = Some c -> load m (Some a) = Ok c.
Proof. intros H. simpl. by rewrite H. Qed.

Lemma modify_Some m a c f :
  m !! a = Some c -> modify m (Some a) f = Ok (<[a := f c]> m).
Proof. intros H. simpl. by rewrite H. Qed.

Lemma incr_lt x : x < INT_MAX -> incr x = Ok (x + 1).
Proof. intros H. unfold incr. by rewrite (proj2 (Z.ltb_lt _ _) H). Qed.

Lemma incr_ge x : INT_MAX <= x -> incr x = Fail SignedOverflow.
Proof. intros H. unfold incr. by rewrite (proj2 (Z.ltb_ge _ _) H). Qed.

Lemma pool_length dl chain : pool dl chain -> (1 <= length chain)%nat.
Proof. intros H. pose proof (pool_capacity _ _ H). pose proof (pool_bounds _ _ H). lia. Qed.

Lemma pool_cell dl chain i :
  pool dl chain -> (i < length chain)%nat ->
  exists a c, chain !! i = Some a /\ nodes dl !! a = Some c /\
              next c = chain !! S i /\ prev c = before chain i.
Proof.
  intros H Hi. destruct (lookup_lt_is_Some_2 chain i Hi) as [a Ha].
  destruct (pool_linked _ _ H) as [_ Hc].
  destruct (Hc i a Ha) as (c & ? & ? & ?). by exists a, c.
Qed.

Lemma contents_set_elem m chain i a c e :
  NoDup chain -> chain !! i = Some a -> m !! a = Some c ->
  contents (<[a := set_elem e c]> m) chain = <[i := e]> (contents m chain).
Proof.
  intros Hnd Hi Ha. apply list_eq. intros j. unfold contents.
  destruct (decide (j = i)) as [->|Hne].
  - rewrite list_lookup_insert_eq
      by (rewrite length_fmap; by eapply lookup_lt_Some).
    rewrite list_lookup_fmap, Hi. simpl. unfold cell_elem.
    by rewrite list_lookup_insert_eq by (by eapply lookup_lt_Some).
  - rewrite list_lookup_insert_ne by done. rewrite !list_lookup_fmap.
    destruct (chain !! j) as [b|] eqn:Hj; [|done]. simpl. f_equal.
    unfold cell_elem. rewrite list_lookup_insert_ne; [done|].
    intros <-. apply Hne. eapply NoDup_lookup; eauto.
Qed.

Lemma contents_relink m chain a c c' :
  m !! a = Some c -> elem c' = elem c ->
  contents (<[a := c']> m) chain = contents m chain.
Proof.
  intros Ha He. unfold contents. apply list_fmap_ext. intros _ b _.
  unfold cell_elem. destruct (decide (a = b)) as [<-|Hne].
  - rewrite list_lookup_insert_eq by (by eapply lookup_lt_Some). by rewrite Ha.
  - by rewrite list_lookup_insert_ne.
Qed.

Lemma contents_alloc m chain x :
  linked m chain -> contents (m ++ [x]) chain = contents m chain.
Proof.
  intros Hl. unfold contents. apply list_fmap_ext. intros i a Hi.
  unfold cell_elem. rewrite lookup_app_l; [done|]. by eapply linked_lt.
Qed.

Lemma contents_lookup dl chain i a c :
  nodes dl !! a = Some c -> chain !! i = Some a ->
  contents (nodes dl) chain !! i = Some (elem c).
Proof.
  intros Ha Hi. unfold contents. rewrite list_lookup_fmap, Hi. simpl.
  unfold cell_elem. by rewrite Ha.
Qed.


Lemma append_spec dl chain e :
  pool dl chain -> size dl < INT_MAX ->
  exists dl' chain',
    DLinkedList_append dl e = Ok dl' /\ pool dl' chain' /\
    size dl' = size dl + 1 /\
    capacity dl' = Z.max (capacity dl) (size dl + 1) /\
    contents (nodes dl') chain'
    = (if size dl =? 0
       then <[(length chain - 1)%nat := e]> (contents (nodes dl) chain)
       else if size dl =? capacity dl
       then contents (nodes dl) chain ++ [e]
       else <[Z.to_nat (size dl) := e]> (contents (nodes dl) chain)).
Proof.
  intros H Hsz. pose proof (pool_length _ _ H) as Hlen.
  pose proof (pool_capacity _ _ H) as Hcap.
  pose proof (pool_size _ _ H) as Hs. pose proof (pool_bounds _ _ H) as Hb.
  pose proof (pool_linked _ _ H) as Hlk.
  unfold DLinkedList_append.
  destruct (Z.eqb_spec (size dl) 0) as [H0|H0].
  - destruct (pool_cell dl chain (length chain - 1) H) as (t & ct & Ht & Hct & _);
      [lia|].
    rewrite (pool_tail _ _ H), Ht, (modify_Some _ _ _ _ Hct). simpl.
    rewrite H0. simpl. eexists _, chain. split; [done|].
    split; [|simpl; split_and!; [lia|lia|]].
    + destruct H. split; simpl; try done; try lia.
      * by apply linked_set_elem.
      * by rewrite length_insert.
      * by rewrite pool_end0, H0.
    + by apply contents_set_elem; [apply Hlk|..].
  - destruct (Z.eqb_spec (size dl) (capacity dl)) as [Hfull|Hfull].
    + destruct (pool_cell dl chain (length chain - 1) H) as (t & ct & Ht & Hct & _);
        [lia|].
      assert (Hct' : (nodes dl ++ [mk_node e None (tail dl)]) !! t = Some ct).
      { rewrite lookup_app_l; [done|]. by eapply lookup_lt_Some. }
      simpl. rewrite (pool_tail _ _ H), Ht in Hct' |- *.
      rewrite (modify_Some _ _ _ _ Hct'). simpl.
      rewrite incr_lt by lia. simpl.
      rewrite (pool_end _ _ H).
      replace (Z.to_nat (size dl) - 1)%nat with (length chain - 1)%nat by lia.
      rewrite Ht. simpl.
      rewrite list_lookup_insert_eq
        by (rewrite length_app; apply lookup_lt_Some in Hct; simpl; lia).
      simpl. rewrite incr_lt by done. simpl.
      eexists _, (chain ++ [length (nodes dl)]). split; [done|].
      split; [|simpl; split_and!; [lia|lia|]].
      * pose proof (linked_snoc _ _ _ _ e Hlk Ht Hct) as Hl.
        destruct H. split; simpl; try done; try lia.
        -- rewrite length_insert, !length_app. simpl. lia.
        -- rewrite lookup_app_l by lia. done.
        -- rewrite length_app. simpl.
           rewrite lookup_app_r by lia.
           by replace (length chain + 1 - 1 - length chain)%nat with 0%nat by lia.
        -- rewrite lookup_app_l by lia. done.
        -- rewrite lookup_app_r by lia. rewrite pool_all0.
           by replace (Z.to_nat (size dl + 1) - 1 - length chain)%nat
             with 0%nat by lia.
        -- rewrite length_app. simpl. lia.
      * rewrite (contents_relink _ _ t ct) by done.
        unfold contents at 1. rewrite fmap_app. simpl. f_equal.
        -- by apply contents_alloc.
        -- unfold cell_elem. rewrite lookup_app_r by lia.
           by rewrite Nat.sub_diag.
    + destruct (pool_cell dl chain (Z.to_nat (size dl) - 1) H)
        as (a & c & Ha & Hc & Hn & _); [lia|].
      destruct (pool_cell dl chain (Z.to_nat (size dl)) H)
        as (b & cb & Hb' & Hcb & _); [lia|].
      replace (S (Z.to_nat (size dl) - 1)) with (Z.to_nat (size dl)) in Hn by lia.
      rewrite (pool_end _ _ H), Ha, (load_Some _ _ _ Hc). simpl.
      rewrite Hn, Hb'. simpl. rewrite Hcb. simpl.
      pose proof (linked_set_elem _ _ _ _ e Hlk Hcb) as Hl.
      destruct Hl as [Hnd Hl].
      destruct (Hl _ _ Ha) as (c' & Hc' & Hn' & _).
      pose proof (conj Hnd Hl) as Hl'.
      rewrite Hc'. simpl. rewrite incr_lt by done. simpl.
      eexists _, chain. split; [done|].
      split; [|simpl; split_and!; [lia|lia|]].
      * destruct H. split; simpl; try done; try lia.
        -- by rewrite length_insert.
        -- rewrite Hn'. f_equal. lia.
      * by apply contents_set_elem.
Qed.

Lemma append_overflow dl chain e :
  pool dl chain -> INT_MAX <= size dl ->
  DLinkedList_append dl e = Fail SignedOverflow.
Proof.
  intros H Hsz. pose proof (pool_length _ _ H) as Hlen.
  pose proof (pool_capacity _ _ H) as Hcap.
  pose proof (pool_size _ _ H) as Hs. pose proof (pool_bounds _ _ H) as Hb.
  unfold DLinkedList_append.
  destruct (Z.eqb_spec (size dl) 0) as [H0|H0]; [unfold INT_MAX in *; lia|].
  destruct (Z.eqb_spec (size dl) (capacity dl)) as [Hfull|Hfull]; [|lia].
  destruct (pool_cell dl chain (length chain - 1) H) as (t & ct & Ht & Hct & _);
    [lia|].
  assert (Hct' : (nodes dl ++ [mk_node e None (tail dl)]) !! t = Some ct).
  { rewrite lookup_app_l; [done|]. by eapply lookup_lt_Some. }
  simpl. rewrite (pool_tail _ _ H), Ht in Hct' |- *.
  rewrite (modify_Some _ _ _ _ Hct'). simpl.
  by rewrite incr_ge by lia.
Qed.

Lemma prepend_spec dl chain e :
  pool dl chain -> size dl < INT_MAX ->
  size dl = 0 \/ size dl = capacity dl ->
  exists dl' chain',
    DLinkedList_prepend dl e = Ok dl' /\ pool dl' chain' /\
    size dl' = size dl + 1 /\
    capacity dl' = Z.max (capacity dl) (size dl + 1) /\
    contents (nodes dl') chain'
    = (if size dl =? 0
       then <[0%nat := e]> (contents (nodes dl) chain)
       else e :: contents (nodes dl) chain).
Proof.
  intros H Hsz Hcase. pose proof (pool_length _ _ H) as Hlen.
  pose proof (pool_capacity _ _ H) as Hcap.
  pose proof (pool_size _ _ H) as Hs. pose proof (pool_bounds _ _ H) as Hb.
  pose proof (pool_linked _ _ H) as Hlk.
  destruct (pool_cell dl chain 0 H) as (f & cf & Hf & Hcf & _); [lia|].
  unfold DLinkedList_prepend.
  destruct (Z.eqb_spec (size dl) 0) as [H0|H0].
  - rewrite (pool_front _ _ H), Hf, (modify_Some _ _ _ _ Hcf). simpl.
    rewrite H0. simpl. eexists _, chain. split; [done|].
    split; [|simpl; split_and!; [lia|lia|]].
    + destruct H. split; simpl; try done; try lia.
      * by apply linked_set_elem.
      * by rewrite length_insert.
      * by rewrite pool_end0, H0.
    + by apply contents_set_elem; [apply Hlk|..].
  - destruct Hcase as [?|Hfull]; [done|].
    rewrite (proj2 (Z.eqb_eq _ _) Hfull).
    assert (Hcf' : (nodes dl ++ [mk_node e (front dl) None]) !! f = Some cf).
    { rewrite lookup_app_l; [done|]. by eapply lookup_lt_Some. }
    simpl. rewrite (pool_front _ _ H), Hf in Hcf' |- *.
    rewrite (modify_Some _ _ _ _ Hcf'). simpl.
    rewrite incr_lt by lia. simpl.
    rewrite (pool_start _ _ H), Hf. simpl.
    rewrite list_lookup_insert_eq
      by (rewrite length_app; apply lookup_lt_Some in Hcf; simpl; lia).
    simpl. rewrite incr_lt by done. simpl.
    eexists _, (length (nodes dl) :: chain). split; [done|].
    split; [|simpl; split_and!; [lia|lia|]].
    + pose proof (linked_cons _ _ _ _ e Hlk Hf Hcf) as Hl.
      destruct H. split; simpl; try done; try lia.
      * rewrite length_insert, !length_app. simpl. lia.
      * rewrite pool_tail0. rewrite Nat.sub_0_r.
        destruct (length chain) as [|k]; [lia|]. simpl. by rewrite Nat.sub_0_r.
      * rewrite pool_end0.
        replace (Z.to_nat (size dl + 1) - 1)%nat
          with (S (Z.to_nat (size dl) - 1)) by lia.
        done.
    + rewrite (contents_relink _ _ f cf) by done. f_equal.
      * apply lookup_lt_Some in Hcf. unfold cell_elem.
        rewrite list_lookup_insert_ne by lia.
        rewrite lookup_app_r by lia. by rewrite Nat.sub_diag.
      * by apply contents_alloc.
Qed.

Lemma prepend_spare dl chain e :
  pool dl chain -> 0 < size dl < capacity dl ->
  DLinkedList_prepend dl e = Fail AssertionFailed.
Proof.
  intros H Hsz. pose proof (pool_length _ _ H) as Hlen.
  destruct (pool_cell dl chain 0 H) as (f & cf & Hf & Hcf & _ & Hp); [lia|].
  unfold DLinkedList_prepend.
  destruct (Z.eqb_spec (size dl) 0) as [H0|H0]; [lia|].
  destruct (Z.eqb_spec (size dl) (capacity dl)) as [Hfull|Hfull]; [lia|].
  rewrite (pool_start _ _ H), Hf, (load_Some _ _ _ Hcf). simpl.
  by rewrite Hp.
Qed.

Lemma prepend_overflow dl chain e :
  pool dl chain -> INT_MAX <= size dl ->
  DLinkedList_prepend dl e = Fail SignedOverflow.
Proof.
  intros H Hsz. pose proof (pool_length _ _ H) as Hlen.
  pose proof (pool_capacity _ _ H) as Hcap.
  pose proof (pool_size _ _ H) as Hs. pose proof (pool_bounds _ _ H) as Hb.
  destruct (pool_cell dl chain 0 H) as (f & cf & Hf & Hcf & _); [lia|].
  unfold DLinkedList_prepend.
  destruct (Z.eqb_spec (size dl) 0) as [H0|H0]; [unfold INT_MAX in *; lia|].
  destruct (Z.eqb_spec (size dl) (capacity dl)) as [Hfull|Hfull]; [|lia].
  assert (Hcf' : (nodes dl ++ [mk_node e (front dl) None]) !! f = Some cf).
  { rewrite lookup_app_l; [done|]. by eapply lookup_lt_Some. }
  simpl. rewrite (pool_front _ _ H), Hf in Hcf' |- *.
  rewrite (modify_Some _ _ _ _ Hcf'). simpl.
  by rewrite incr_ge by lia.
Qed.

Lemma search_spec dl chain index :
  pool dl chain -> 0 <= index < size dl ->
  search dl index = Ok (chain !! Z.to_nat index) /\
  split_search dl index = Ok (chain !! Z.to_nat index) /\
  follow next (nodes dl) (Z.to_nat index) (list_start dl)
    = Ok (chain !! Z.to_nat index) /\
  follow prev (nodes dl) (Z.to_nat (size dl - 1 - index)) (list_end dl)
    = Ok (chain !! Z.to_nat index).
Proof.
  intros H Hi. pose proof (pool_capacity _ _ H) as Hcap.
  pose proof (pool_size _ _ H) as Hs.
  assert (Hfwd : follow next (nodes dl) (Z.to_nat index) (list_start dl)
                 = Ok (chain !! Z.to_nat index)).
  { rewrite (pool_start _ _ H).
    rewrite (follow_next _ chain) by (by apply (pool_linked _ _ H) || lia).
    done. }
  assert (Hbwd : follow prev (nodes dl) (Z.to_nat (size dl - 1 - index))
                   (list_end dl) = Ok (chain !! Z.to_nat index)).
  { rewrite (pool_end _ _ H).
    rewrite (follow_prev _ chain) by (by apply (pool_linked _ _ H) || lia).
    do 2 f_equal. lia. }
  assert (Hsplit : split_search dl index = Ok (chain !! Z.to_nat index)).
  { unfold split_search.
    rewrite (proj2 (Z.leb_le 0 index)), (proj2 (Z.ltb_lt index (size dl))) by lia.
    simpl. by destruct (index <? _). }
  split_and!; try done.
  unfold search.
  rewrite (proj2 (Z.leb_le 0 index)), (proj2 (Z.ltb_lt index (size dl))) by lia.
  simpl. destruct (Z.eqb_spec index 0) as [->|Hne].
  - by rewrite (pool_start _ _ H).
  - destruct (Z.eqb_spec index (size dl - 1)) as [->|Hne'].
    + rewrite (pool_end _ _ H). do 2 f_equal. lia.
    + done.
Qed.

Lemma chase_next m chain fuel i :
  linked m chain -> (length chain - i <= fuel)%nat ->
  chase next m fuel (chain !! i) = drop i chain.
Proof.
  intros Hl. revert i. induction fuel as [|k IH]; intros i Hf.
  - simpl. symmetry. apply drop_ge. lia.
  - simpl. destruct (chain !! i) as [a|] eqn:Ha.
    + destruct Hl as [Hnd H]. destruct (H i a Ha) as (c & Hc & Hn & _).
      rewrite Hc, Hn, (IH (S i)) by lia. symmetry. by apply drop_S.
    + symmetry. apply drop_ge. by apply lookup_ge_None.
Qed.

Lemma chase_prev m chain fuel i :
  linked m chain -> (i < length chain)%nat -> (i < fuel)%nat ->
  chase prev m fuel (chain !! i) = reverse (take (S i) chain).
Proof.
  intros Hl. revert fuel. induction i as [|j IH]; intros fuel Hi Hf.
  - destruct fuel as [|k]; [lia|]. simpl.
    destruct (lookup_lt_is_Some_2 chain 0) as [a Ha]; [lia|].
    pose proof Hl as [Hnd H]. destruct (H _ _ Ha) as (c & Hc & _ & Hp).
    rewrite Ha, Hc, Hp. simpl.
    destruct chain as [|x chain']; [done|]. simpl in *.
    injection Ha as ->. by destruct k.
  - destruct fuel as [|k]; [lia|]. simpl.
    destruct (lookup_lt_is_Some_2 chain (S j)) as [a Ha]; [lia|].
    pose proof Hl as [Hnd H]. destruct (H _ _ Ha) as (c & Hc & _ & Hp).
    rewrite Ha, Hc, Hp. simpl. rewrite IH by lia.
    by rewrite (take_S_r chain (S j) a Ha), reverse_snoc.
Qed.

Lemma to_list_contents dl chain :
  pool dl chain ->
  to_list dl = take (Z.to_nat (size dl)) (contents (nodes dl) chain).
Proof.
  intros H. unfold to_list. rewrite (pool_start _ _ H).
  rewrite (chase_next _ chain)
    by (apply (pool_linked _ _ H) || (rewrite (pool_all _ _ H); lia)).
  rewrite drop_0. unfold contents. by rewrite fmap_take.
Qed.

Lemma DLinkedList_new_Ok hint (dl : dlinkedlist_t A) :
  DLinkedList_new hint = Ok dl -> 0 <= hint < INT_MAX.
Proof.
  unfold DLinkedList_new.
  destruct (Z.leb_spec 0 hint); [|done].
  destruct (Z.ltb_spec hint INT_MAX); [|done]. lia.
Qed.

Lemma set_spec dl chain e index :
  pool dl chain -> 0 <= index < size dl ->
  exists a c,
    chain !! Z.to_nat index = Some a /\ nodes dl !! a = Some c /\
    DLinkedList_set dl e index
      = Ok (with_nodes dl (<[a := set_elem e c]> (nodes dl))) /\
    pool (with_nodes dl (<[a := set_elem e c]> (nodes dl))) chain.
Proof.
  intros H Hi. pose proof (pool_capacity _ _ H) as Hcap.
  pose proof (pool_size _ _ H) as Hs.
  destruct (pool_cell dl chain (Z.to_nat index) H) as (a & c & Ha & Hc & _); [lia|].
  exists a, c. split_and!; [done|done| |].
  - unfold DLinkedList_set.
    rewrite (proj2 (Z.leb_le 0 index)), (proj2 (Z.leb_le index (size dl))) by lia.
    simpl. destruct (Z.eqb_spec index (size dl)); [lia|].
    destruct (search_spec dl chain index H Hi) as (-> & _). simpl.
    rewrite Ha. simpl. by rewrite Hc.
  - destruct H. split; simpl; try done.
    + by apply linked_set_elem.
    + by rewrite length_insert.
    + lia.
Qed.

Lemma set_at_size dl e :
  DLinkedList_set dl e (size dl)
  = (if 0 <=? size dl then DLinkedList_append dl e else Fail AssertionFailed).
Proof.
  unfold DLinkedList_set. destruct (Z.leb_spec 0 (size dl)); [|done]. simpl.
  by rewrite Z.leb_refl, Z.eqb_refl.
Qed.

Lemma get_spec dl chain index :
  pool dl chain -> 0 <= index < size dl ->
  exists a c,
    chain !! Z.to_nat index = Some a /\ nodes dl !! a = Some c /\
    DLinkedList_get dl index = Ok (elem c).
Proof.
  intros H Hi. pose proof (pool_capacity _ _ H) as Hcap.
  pose proof (pool_size _ _ H) as Hs.
  destruct (pool_cell dl chain (Z.to_nat index) H) as (a & c & Ha & Hc & _); [lia|].
  exists a, c. split_and!; [done|done|].
  unfold DLinkedList_get.
  rewrite (proj2 (Z.leb_le 0 index)), (proj2 (Z.ltb_lt index (size dl))) by lia.
  simpl. destruct (Z.eqb_spec (size dl) 0); [lia|].
  destruct (search_spec dl chain index H Hi) as (-> & _). simpl.
  rewrite Ha. simpl. by rewrite Hc.
Qed.

Lemma get_out_of_range dl index :
  index < 0 \/ size dl <= index ->
  DLinkedList_get dl index = Fail AssertionFailed.
Proof.
  intros Hi. unfold DLinkedList_get.
  destruct (Z.leb_spec 0 index); [|done]. simpl.
  destruct (Z.ltb_spec index (size dl)); [lia|done].
Qed.

Lemma reachable_pool dl : reachable dl -> exists chain, pool dl chain.
Proof.
  induction 1 as [hint dl Hnew|o dl dl' Hr [chain IH] Hstep].
  - destruct (DLinkedList_new_spec hint (DLinkedList_new_Ok _ _ Hnew))
      as (dl0 & Hnew0 & Hpool & _).
    rewrite Hnew in Hnew0. injection Hnew0 as <-. eauto.
  - destruct o; simpl in Hstep.
    + injection Hstep as <-. eauto.
    + destruct (DLinkedList_get dl index); [|done]. injection Hstep as <-. eauto.
    + destruct (DLinkedList_first dl); [|done]. injection Hstep as <-. eauto.
    + destruct (DLinkedList_last dl); [|done]. injection Hstep as <-. eauto.
    + destruct (decide (0 <= index < size dl)) as [Hi|Hi].
      * destruct (set_spec dl chain e index IH Hi) as (a & c & _ & _ & Hset & Hp).
        rewrite Hset in Hstep. injection Hstep as <-. eauto.
      * unfold DLinkedList_set in Hstep.
        destruct (Z.leb_spec 0 index); [|done].
        destruct (Z.leb_spec index (size dl)); [|done]. simpl in Hstep.
        destruct (Z.eqb_spec index (size dl)); [|lia].
        destruct (decide (size dl < INT_MAX)) as [Hlt|Hge].
        -- destruct (append_spec dl chain e IH Hlt) as (dl1 & chain' & Happ & Hp & _).
           rewrite Happ in Hstep. injection Hstep as <-. eauto.
        -- rewrite (append_overflow dl chain) in Hstep by (done || lia). done.
    + destruct (decide (size dl < INT_MAX)) as [Hlt|Hge].
      * destruct (append_spec dl chain e IH Hlt) as (dl1 & chain' & Happ & Hp & _).
        rewrite Happ in Hstep. injection Hstep as <-. eauto.
      * rewrite (append_overflow dl chain) in Hstep by (done || lia). done.
    + destruct (decide (size dl < INT_MAX)) as [Hlt|Hge].
      * destruct (decide (size dl = 0 \/ size dl = capacity dl)) as [Hc|Hc].
        -- destruct (prepend_spec dl chain e IH Hlt Hc) as (dl1 & chain' & Hpre & Hp & _).
           rewrite Hpre in Hstep. injection Hstep as <-. eauto.
        -- pose proof (pool_size _ _ IH).
           rewrite (prepend_spare dl chain) in Hstep by (done || lia). done.
      * rewrite (prepend_overflow dl chain) in Hstep by (done || lia). done.
    + injection Hstep as <-. eauto.
    + injection Hstep as <-. eauto.
    + injection Hstep as <-. eauto.
Qed.

Lemma run_reachable os dl dl' :
  reachable dl -> run os dl = Ok dl' -> reachable dl'.
Proof.
  revert dl. induction os as [|o os IH]; intros dl Hr Hrun; simpl in Hrun.
  - by injection Hrun as <-.
  - destruct (exec o dl) as [dl1|] eqn:Hstep; [|done].
    eapply IH; [|done]. by eapply reachable_step.
Qed.

Lemma scenario_reachable hint os dl : scenario hint os = Ok dl -> reachable dl.
Proof.
  unfold scenario. destruct (DLinkedList_new hint) as [dl0|] eqn:Hnew; [|done].
  simpl. apply run_reachable. by apply (reachable_new hint).
Qed.

Lemma chase_NULL (field : node_t A -> Node_T) m fuel :
  chase field m fuel None = [].
Proof. by destruct fuel. Qed.

Lemma pool_cells_chain dl chain : pool dl chain -> pool_cells dl = chain.
Proof.
  intros H. unfold pool_cells. rewrite (pool_front _ _ H).
  rewrite (chase_next _ chain) by (apply (pool_linked _ _ H) || (rewrite (pool_all _ _ H); lia)).
  apply drop_0.
Qed.

Lemma spares_after_chain dl chain :
  pool dl chain ->
  spares_after dl = drop (Z.to_nat (Z.max (size dl) 1)) chain.
Proof.
  intros H. pose proof (pool_length _ _ H) as Hlen.
  pose proof (pool_capacity _ _ H) as Hcap.
  pose proof (pool_size _ _ H) as Hs.
  destruct (pool_cell dl chain (Z.to_nat (size dl) - 1) H)
    as (a & c & Ha & Hc & Hn & _); [lia|].
  unfold spares_after. rewrite (pool_end _ _ H), Ha, (load_Some _ _ _ Hc), Hn.
  rewrite (chase_next _ chain) by (apply (pool_linked _ _ H) || (rewrite (pool_all _ _ H); lia)).
  f_equal. lia.
Qed.

Lemma spares_before_nil dl chain : pool dl chain -> spares_before dl = [].
Proof.
  intros H. pose proof (pool_length _ _ H) as Hlen.
  destruct (pool_cell dl chain 0 H) as (a & c & Ha & Hc & _ & Hp); [lia|].
  unfold spares_before. rewrite (pool_start _ _ H), Ha, (load_Some _ _ _ Hc), Hp.
  done.
Qed.

(** ** What a client reads back *)

Lemma length_contents m chain : length (contents m chain) = length chain.
Proof. unfold contents. by rewrite length_fmap. Qed.

Lemma length_to_list dl chain :
  pool dl chain -> length (to_list dl) = Z.to_nat (size dl).
Proof.
  intros H. pose proof (pool_capacity _ _ H). pose proof (pool_size _ _ H).
  rewrite (to_list_contents _ _ H), length_take, length_contents. lia.
Qed.

Lemma get_to_list dl chain index :
  pool dl chain -> 0 <= index < size dl ->
  exists v, DLinkedList_get dl index = Ok v /\
            to_list dl !! Z.to_nat index = Some v.
Proof.
  intros H Hi.
  destruct (get_spec dl chain index H Hi) as (a & c & Ha & Hc & Hget).
  exists (elem c). split; [done|].
  rewrite (to_list_contents _ _ H), lookup_take_lt by lia.
  by eapply contents_lookup.
Qed.

Lemma first_to_list dl chain :
  pool dl chain -> 0 < size dl ->
  exists v, DLinkedList_first dl = Ok v /\ to_list dl !! 0%nat = Some v.
Proof.
  intros H Hpos. pose proof (pool_capacity _ _ H). pose proof (pool_size _ _ H).
  destruct (pool_cell dl chain 0 H) as (a & c & Ha & Hc & _); [lia|].
  exists (elem c). split.
  - unfold DLinkedList_first. destruct (Z.eqb_spec (size dl) 0); [lia|].
    by rewrite (pool_start _ _ H), Ha, (load_Some _ _ _ Hc).
  - rewrite (to_list_contents _ _ H), lookup_take_lt by lia.
    by eapply contents_lookup.
Qed.

Lemma last_to_list dl chain :
  pool dl chain -> 0 < size dl ->
  exists v, DLinkedList_last dl = Ok v /\
            to_list dl !! (Z.to_nat (size dl) - 1)%nat = Some v.
Proof.
  intros H Hpos. pose proof (pool_capacity _ _ H). pose proof (pool_size _ _ H).
  destruct (pool_cell dl chain (Z.to_nat (size dl) - 1) H)
    as (a & c & Ha & Hc & _); [lia|].
  exists (elem c). split.
  - unfold DLinkedList_last. destruct (Z.eqb_spec (size dl) 0); [lia|].
    by rewrite (pool_end _ _ H), Ha, (load_Some _ _ _ Hc).
  - rewrite (to_list_contents _ _ H), lookup_take_lt by lia.
    by eapply contents_lookup.
Qed.

(** On a non-empty container [DLinkedList_append] adds at the end. *)
Lemma append_to_list dl chain e :
  pool dl chain -> 1 <= size dl < INT_MAX ->
  exists dl' chain',
    DLinkedList_append dl e = Ok dl' /\ pool dl' chain' /\
    size dl' = size dl + 1 /\
    capacity dl' = Z.max (capacity dl) (size dl + 1) /\
    to_list dl' = to_list dl ++ [e].
Proof.
  intros H Hsz. pose proof (pool_capacity _ _ H) as Hcap.
  pose proof (pool_size _ _ H) as Hs.
  destruct (append_spec dl chain e H) as (dl' & chain' & Happ & H' & Hsz' & Hcap' & Hc);
    [lia|].
  exists dl', chain'. split_and!; try done.
  rewrite (to_list_contents _ _ H'), (to_list_contents _ _ H), Hc, Hsz'.
  destruct (Z.eqb_spec (size dl) 0); [lia|].
  replace (Z.to_nat (size dl + 1)) with (S (Z.to_nat (size dl))) by lia.
  destruct (Z.eqb_spec (size dl) (capacity dl)).
  - rewrite !take_ge; [done|rewrite length_contents; lia|].
    rewrite length_app, length_contents. simpl. lia.
  - rewrite (take_S_r _ _ e).
    + by rewrite take_insert_ge by lia.
    + apply list_lookup_insert_eq. rewrite length_contents. lia.
Qed.

(** On an empty container [DLinkedList_append] writes to the cell at [tail];
    the client reads back the cell at [list_start]. *)
Lemma append_empty_to_list dl chain e :
  pool dl chain -> size dl = 0 ->
  exists dl' chain',
    DLinkedList_append dl e = Ok dl' /\ pool dl' chain' /\
    size dl' = 1 /\ capacity dl' = capacity dl /\
    to_list dl' = [if capacity dl =? 1 then e else None].
Proof.
  intros H H0. pose proof (pool_capacity _ _ H) as Hcap.
  pose proof (pool_bounds _ _ H) as Hb. pose proof (pool_all _ _ H) as Hall.
  pose proof (pool_fresh _ _ H H0) as Hnull.
  destruct (append_spec dl chain e H) as (dl' & chain' & Happ & H' & Hsz' & Hcap' & Hc);
    [unfold INT_MAX; lia|].
  exists dl', chain'. split_and!; try done; try lia.
  rewrite (to_list_contents _ _ H'), Hc, Hsz', H0. simpl.
  destruct (pool_cell dl chain 0 H) as (a & c & Ha & Hca & _); [lia|].
  pose proof (contents_lookup dl chain 0 a c Hca Ha) as Hl0.
  rewrite (Forall_lookup_1 _ _ _ _ Hnull Hca) in Hl0.
  destruct (Z.eqb_spec (capacity dl) 1) as [H1|H1].
  - replace (length chain - 1)%nat with 0%nat by lia.
    destruct (contents (nodes dl) chain); [done|]. done.
  - destruct (contents (nodes dl) chain) as [|x l] eqn:E; [done|].
    injection Hl0 as ->.
    pose proof (length_contents (nodes dl) chain) as Hlen.
    rewrite E in Hlen. simpl in Hlen.
    destruct (length chain - 1)%nat as [|k] eqn:Ek; [lia|]. done.
Qed.

Lemma appends_to_list es dl chain :
  pool dl chain -> 1 <= size dl -> size dl + Z.of_nat (length es) <= INT_MAX ->
  exists dl' chain',
    run (append_all es) dl = Ok dl' /\ pool dl' chain' /\
    size dl' = size dl + Z.of_nat (length es) /\
    capacity dl' = Z.max (capacity dl) (size dl + Z.of_nat (length es)) /\
    to_list dl' = to_list dl ++ es.
Proof.
  revert dl chain. induction es as [|e es IH]; intros dl chain H Hpos Hle.
  - exists dl, chain. pose proof (pool_size _ _ H). simpl.
    split_and!; try done; try lia. by rewrite app_nil_r.
  - simpl in Hle.
    destruct (append_to_list dl chain e H)
      as (dl1 & chain1 & Happ & H1 & Hsz1 & Hcap1 & Hl1); [lia|].
    destruct (IH dl1 chain1 H1) as (dl' & chain' & Hrun & H' & Hsz' & Hcap' & Hl');
      [lia|lia|].
    exists dl', chain'. simpl. rewrite Happ. simpl.
    split_and!; try done; try lia.
    by rewrite Hl', Hl1, <- app_assoc.
Qed.

(** Appending [e :: es] to a new container: every element but the first is
    read back in append order; the first one is read back only when the pool
    starts with a single cell. *)
Lemma appends_from_new hint e es :
  0 <= hint < INT_MAX -> 1 + Z.of_nat (length es) <= INT_MAX ->
  exists dl chain,
    scenario hint (append_all (e :: es)) = Ok dl /\ pool dl chain /\
    size dl = 1 + Z.of_nat (length es) /\
    capacity dl = Z.max hint (1 + Z.of_nat (length es)) /\
    to_list dl = (if hint <=? 1 then e else None) :: es.
Proof.
  intros Hh Hle.
  destruct (DLinkedList_new_spec hint Hh) as (dl0 & Hnew & H0 & Hsz0 & Hcap0 & _).
  destruct (append_empty_to_list dl0 _ e H0 Hsz0)
    as (dl1 & chain1 & Happ & H1 & Hsz1 & Hcap1 & Hl1).
  destruct (appends_to_list es dl1 chain1 H1)
    as (dl & chain & Hrun & H & Hsz & Hcap & Hl); [lia|lia|].
  exists dl, chain. unfold scenario. rewrite Hnew. simpl. rewrite Happ. simpl.
  split_and!; try done; try lia.
  rewrite Hl, Hl1, Hcap0. simpl. f_equal.
  destruct (Z.leb_spec hint 1), (Z.eqb_spec (Z.max hint 1) 1); (done || lia).
Qed.

(** On an empty or a full container [DLinkedList_prepend] adds in front. *)
Lemma prepend_to_list dl chain e :
  pool dl chain -> size dl < INT_MAX ->
  size dl = 0 \/ size dl = capacity dl ->
  exists dl' chain',
    DLinkedList_prepend dl e = Ok dl' /\ pool dl' chain' /\
    size dl' = size dl + 1 /\
    capacity dl' = Z.max (capacity dl) (size dl + 1) /\
    to_list dl' = e :: to_list dl.
Proof.
  intros H Hsz Hcase. pose proof (pool_capacity _ _ H) as Hcap.
  pose proof (pool_size _ _ H) as Hs. pose proof (pool_bounds _ _ H) as Hb.
  destruct (prepend_spec dl chain e H Hsz Hcase)
    as (dl' & chain' & Hpre & H' & Hsz' & Hcap' & Hc).
  exists dl', chain'. split_and!; try done.
  rewrite (to_list_contents _ _ H'), (to_list_contents _ _ H), Hc, Hsz'.
  replace (Z.to_nat (size dl + 1)) with (S (Z.to_nat (size dl))) by lia.
  destruct (Z.eqb_spec (size dl) 0) as [H0|H0]; [|done].
  rewrite H0. simpl.
  destruct (contents (nodes dl) chain) as [|x l] eqn:E; [|done].
  pose proof (length_contents (nodes dl) chain) as Hl. rewrite E in Hl.
  simpl in Hl. lia.
Qed.

Lemma prepends_to_list es dl chain :
  pool dl chain -> size dl = capacity dl ->
  size dl + Z.of_nat (length es) <= INT_MAX ->
  exists dl' chain',
    run (prepend_all es) dl = Ok dl' /\ pool dl' chain' /\
    size dl' = size dl + Z.of_nat (length es) /\
    capacity dl' = size dl' /\
    to_list dl' = reverse es ++ to_list dl.
Proof.
  revert dl chain. induction es as [|e es IH]; intros dl chain H Hfull Hle.
  - exists dl, chain. simpl. split_and!; try done; lia.
  - simpl in Hle.
    destruct (prepend_to_list dl chain e H)
      as (dl1 & chain1 & Hpre & H1 & Hsz1 & Hcap1 & Hl1); [lia|by right|].
    destruct (IH dl1 chain1 H1) as (dl' & chain' & Hrun & H' & Hsz' & Hcap' & Hl');
      [lia|lia|].
    exists dl', chain'. simpl. rewrite Hpre. simpl.
    split_and!; try done; try lia.
    by rewrite Hl', Hl1, reverse_cons, <- app_assoc.
Qed.

(** Prepending to a new container whose pool has a single cell: the elements
    are read back in reverse order and the capacity is their number. *)
Lemma prepends_from_new hint e es :
  0 <= hint <= 1 -> 1 + Z.of_nat (length es) <= INT_MAX ->
  exists dl chain,
    scenario hint (prepend_all (e :: es)) = Ok dl /\ pool dl chain /\
    size dl = 1 + Z.of_nat (length es) /\
    capacity dl = 1 + Z.of_nat (length es) /\
    to_list dl = reverse (e :: es).
Proof.
  intros Hh Hle.
  destruct (DLinkedList_new_spec hint) as (dl0 & Hnew & H0 & Hsz0 & Hcap0 & _);
    [unfold INT_MAX; lia|].
  destruct (prepend_to_list dl0 _ e H0)
    as (dl1 & chain1 & Hpre & H1 & Hsz1 & Hcap1 & Hl1);
    [unfold INT_MAX; lia|by left|].
  destruct (prepends_to_list es dl1 chain1 H1)
    as (dl & chain & Hrun & H & Hsz & Hcap & Hl); [lia|lia|].
  exists dl, chain. unfold scenario. rewrite Hnew. simpl. rewrite Hpre. simpl.
  split_and!; try done; try lia.
  rewrite Hl, Hl1, reverse_cons.
  assert (to_list dl0 = []) as ->; [|done].
  apply length_zero_iff_nil. rewrite (length_to_list _ _ H0). lia.
Qed.

(** With two cells or more in the new pool the second prepend aborts. *)
Lemma prepends_abort hint e1 e2 es :
  2 <= hint < INT_MAX ->
  scenario hint (prepend_all (e1 :: e2 :: es)) = Fail AssertionFailed.
Proof.
  intros Hh.
  destruct (DLinkedList_new_spec hint) as (dl0 & Hnew & H0 & Hsz0 & Hcap0 & _);
    [lia|].
  destruct (prepend_to_list dl0 _ e1 H0)
    as (dl1 & chain1 & Hpre & H1 & Hsz1 & Hcap1 & Hl1);
    [unfold INT_MAX; lia|by left|].
  unfold scenario. rewrite Hnew. simpl. rewrite Hpre. simpl.
  rewrite (prepend_spare dl1 chain1) by (done || lia). done.
Qed.

(** [DLinkedList_set] below [size] overwrites one element in place. *)
Lemma set_to_list dl chain e index :
  pool dl chain -> 0 <= index < size dl ->
  exists dl',
    DLinkedList_set dl e index = Ok dl' /\ pool dl' chain /\
    size dl' = size dl /\ capacity dl' = capacity dl /\
    front dl' = front dl /\ tail dl' = tail dl /\
    list_start dl' = list_start dl /\ list_end dl' = list_end dl /\
    to_list dl' = <[Z.to_nat index := e]> (to_list dl).
Proof.
  intros H Hi. pose proof (pool_capacity _ _ H) as Hcap.
  pose proof (pool_size _ _ H) as Hs.
  destruct (set_spec dl chain e index H Hi) as (a & c & Ha & Hc & Hset & H').
  eexists. split; [exact Hset|]. split_and!; try done.
  rewrite (to_list_contents _ _ H'), (to_list_contents _ _ H). simpl.
  rewrite (contents_set_elem _ _ (Z.to_nat index))
    by (done || apply (pool_linked _ _ H)).
  by rewrite take_insert_lt by lia.
Qed.

(** ** Releasing cells *)

Lemma load_live_Some released m a c :
  a ∉ released -> m !! a = Some c -> load_live released m (Some a) = Ok c.
Proof.
  intros Hr Ha. unfold load_live, check_live.
  rewrite bool_decide_eq_false_2 by done. simpl. by rewrite Ha.
Qed.

Lemma modify_live_Some released m a c f :
  a ∉ released -> m !! a = Some c ->
  modify_live released m (Some a) f = Ok (<[a := f c]> m).
Proof.
  intros Hr Ha. unfold modify_live, check_live.
  rewrite bool_decide_eq_false_2 by done. simpl. by rewrite Ha.
Qed.

Lemma release_Some released m a c :
  a ∉ released -> m !! a = Some c ->
  release released m (Some a) = Ok (released ++ [a]).
Proof.
  intros Hr Ha. unfold release. by rewrite (load_live_Some _ _ _ c).
Qed.

(** Cells outside a chain do not matter to it. *)
Lemma linked_outside m chain a c :
  linked m chain -> a ∉ chain -> (a < length m)%nat ->
  linked (<[a := c]> m) chain.
Proof.
  intros [Hnd H] Ha Hlt. split; [done|]. intros i b Hi.
  destruct (H i b Hi) as (cb & Hb & Hn & Hp). exists cb.
  rewrite list_lookup_insert_ne; [done|].
  intros ->. apply Ha. by eapply list_elem_of_lookup_2.
Qed.

(** Cutting the first cell off a chain. *)
Lemma linked_behead m a b rest cb :
  linked m (a :: b :: rest) -> m !! b = Some cb ->
  linked (<[b := set_prev None cb]> m) (b :: rest).
Proof.
  intros [Hnd H] Hb. apply NoDup_cons in Hnd as [_ Hnd]. split; [done|].
  intros j x Hj. destruct (H (S j) x Hj) as (c & Hc & Hn & Hp).
  destruct j as [|k]; simpl in *.
  - injection Hj as <-. exists (set_prev None cb).
    rewrite list_lookup_insert_eq by (by eapply lookup_lt_Some).
    assert (c = cb) as -> by congruence. done.
  - exists c. rewrite list_lookup_insert_ne; [done|].
    intros <-. apply NoDup_cons in Hnd as [Hnotin _].
    apply Hnotin. by eapply list_elem_of_lookup_2.
Qed.

Lemma linked_nil m : linked m [].
Proof. split; [constructor|]. intros i a Hi. done. Qed.

(** One iteration of the loop of [DLinkedList_free]. *)
Lemma Node_free_front dl released a rest :
  linked (nodes dl) (a :: rest) -> front dl = Some a ->
  capacity dl = Z.of_nat (length (a :: rest)) ->
  Forall (fun x => x ∉ released) (a :: rest) ->
  exists dl',
    Node_free dl released FrontField = Ok (dl', released ++ [a], FrontField) /\
    linked (nodes dl') rest /\
    match rest with [] => True | b :: _ => front dl' = Some b end /\
    capacity dl' = Z.of_nat (length rest) /\
    length (nodes dl') = length (nodes dl) /\
    nodes dl' !! a = Some (mk_node None None None) /\
    (forall x, x ∉ a :: rest -> nodes dl' !! x = nodes dl !! x).
Proof.
  intros Hl Hf Hcap Hlive. pose proof Hl as [Hnd H].
  destruct (H 0%nat a eq_refl) as (ca & Hca & Hna & Hpa). simpl in Hna, Hpa.
  apply Forall_cons in Hlive as [Hla Hlrest].
  assert (Halt : (a < length (nodes dl))%nat) by (by eapply lookup_lt_Some).
  unfold Node_free. simpl deref. rewrite Hf. cbn [length] in Hcap.
  rewrite bool_decide_eq_true_2 by done.
  rewrite (proj2 (Z.ltb_lt 0 (capacity dl))) by lia. cbn [assert bind].
  destruct rest as [|b rest']; cbn [length] in Hcap.
  - rewrite (proj2 (Z.ltb_ge 1 (capacity dl))) by lia.
    cbn -[modify_live release].
    rewrite (modify_live_Some _ _ _ _ _ Hla Hca). cbn -[release].
    assert (Hsa : <[a := scrub ca]> (nodes dl) !! a = Some (scrub ca))
      by (by apply list_lookup_insert_eq).
    rewrite (release_Some _ _ _ _ Hla Hsa). simpl.
    eexists. split; [done|]. simpl. split_and!.
    + apply linked_nil.
    + done.
    + lia.
    + by rewrite length_insert.
    + exact Hsa.
    + intros x Hx. apply list_lookup_insert_ne.
      intros <-. apply Hx. by left.
  - rewrite (proj2 (Z.ltb_lt 1 (capacity dl))) by lia.
    apply Forall_cons in Hlrest as [Hlb Hlrest'].
    destruct (H 1%nat b eq_refl) as (cb & Hcb & _).
    assert (Hab : a <> b).
    { intros ->. apply NoDup_cons in Hnd as [Hnotin _]. apply Hnotin. by left. }
    assert (Hblt : (b < length (nodes dl))%nat) by (by eapply lookup_lt_Some).
    rewrite bool_decide_eq_true_2 by done.
    rewrite (load_live_Some _ _ _ _ Hla Hca).
    cbn -[load_live modify_live release]. rewrite Hna.
    cbn -[load_live modify_live release].
    rewrite (modify_live_Some _ _ _ _ _ Hlb Hcb).
    cbn -[load_live modify_live release].
    assert (Hca' : <[b := set_prev None cb]> (nodes dl) !! a = Some ca)
      by (by rewrite list_lookup_insert_ne).
    rewrite (load_live_Some _ _ _ _ Hla Hca').
    cbn -[load_live modify_live release]. rewrite Hna.
    cbn -[load_live modify_live release].
    pose proof (linked_behead _ _ _ _ _ Hl Hcb) as Hl'.
    set (m1 := <[b := set_prev None cb]> (nodes dl)) in *.
    assert (Hfinish : forall d : dlinkedlist_t A,
      front d = Some b ->
      exists dl',
        (do m <- modify_live released m1 (Some a) scrub;
         do released0 <- release released m (Some a);
         Ok (with_nodes (set_capacity d (capacity dl - 1)) m, released0,
             FrontField))
        = Ok (dl', released ++ [a], FrontField) /\
        linked (nodes dl') (b :: rest') /\ front dl' = Some b /\
        capacity dl' = Z.of_nat (S (length rest')) /\
        length (nodes dl') = length (nodes dl) /\
        nodes dl' !! a = Some (mk_node None None None) /\
        (forall x, x ∉ a :: b :: rest' -> nodes dl' !! x = nodes dl !! x)).
    { intros d Hfd.
      rewrite (modify_live_Some _ _ _ _ _ Hla Hca'). cbn -[release].
      assert (Hsa : <[a := scrub ca]> m1 !! a = Some (scrub ca)).
      { apply list_lookup_insert_eq. subst m1. by rewrite length_insert. }
      rewrite (release_Some _ _ _ _ Hla Hsa). simpl.
      eexists. split; [done|]. simpl. split_and!.
      - apply linked_outside; [done| |subst m1; by rewrite length_insert].
        apply NoDup_cons in Hnd as [Hnotin _]. done.
      - done.
      - lia.
      - subst m1. by rewrite !length_insert.
      - exact Hsa.
      - intros x Hx. subst m1. rewrite !list_lookup_insert_ne; [done| |].
        + intros <-. apply Hx. right. by left.
        + intros <-. apply Hx. by left. }
    repeat match goal with
    | |- context [@bool_decide ?P ?d] =>
        destruct (@bool_decide P d);
        cbn -[load_live modify_live release];
        rewrite ?(load_live_Some _ _ _ _ Hla Hca');
        cbn -[load_live modify_live release]
    end; by apply Hfinish.
Qed.

Lemma free_loop_spec rest : forall dl released fuel,
  linked (nodes dl) rest ->
  match rest with [] => True | a :: _ => front dl = Some a end ->
  capacity dl = Z.of_nat (length rest) ->
  Forall (fun x => x ∉ released) rest ->
  (length rest <= fuel)%nat ->
  exists dl',
    free_loop fuel dl released = Some (Ok (dl', released ++ rest)) /\
    length (nodes dl') = length (nodes dl) /\
    (forall x, x ∈ rest -> nodes dl' !! x = Some (mk_node None None None)) /\
    (forall x, x ∉ rest -> nodes dl' !! x = nodes dl !! x).
Proof.
  induction rest as [|a rest IH]; intros dl released fuel Hl Hf Hcap Hlive Hfuel.
  - exists dl. cbn [length] in Hcap.
    assert (Hrun : free_loop fuel dl released = Some (Ok (dl, released))).
    { destruct fuel; simpl; by rewrite (proj2 (Z.ltb_ge 0 (capacity dl))) by lia. }
    rewrite Hrun, app_nil_r. split_and!; try done.
    intros x Hx. by apply elem_of_nil in Hx.
  - destruct fuel as [|fuel]; [simpl in Hfuel; lia|].
    destruct (Node_free_front dl released a rest Hl Hf Hcap Hlive)
      as (dl1 & Hstep & Hl1 & Hf1 & Hcap1 & Hlen1 & Hscr & Hframe).
    pose proof Hl as [Hnd _]. apply NoDup_cons in Hnd as [Hnotin Hnd].
    apply Forall_cons in Hlive as [Hla Hlrest].
    destruct (IH dl1 (released ++ [a]) fuel Hl1 Hf1 Hcap1)
      as (dl' & Hrun & Hlen & Hscr' & Hframe').
    { apply Forall_forall. intros x Hx Hin.
      apply elem_of_app in Hin as [Hin|Hin].
      - rewrite Forall_forall in Hlrest. by apply (Hlrest x).
      - apply list_elem_of_singleton in Hin as ->. done. }
    { simpl in Hfuel. lia. }
    exists dl'. split_and!.
    + cbn [free_loop]. rewrite (proj2 (Z.ltb_lt 0 (capacity dl)))
        by (cbn [length] in Hcap; lia).
      rewrite Hstep, Hrun. by rewrite <- app_assoc.
    + congruence.
    + intros x Hx. apply elem_of_cons in Hx as [->|Hx]; [|by apply Hscr'].
      by rewrite Hframe'.
    + intros x Hx. rewrite Hframe'; [by apply Hframe|].
      intros Hin. apply Hx. by right.
Qed.

(** Every allocated cell is a cell of the pool. *)
Lemma pool_covers dl chain :
  pool dl chain -> chain ≡ₚ seq 0 (length (nodes dl)).
Proof.
  intros H. apply submseteq_length_Permutation.
  - apply NoDup_submseteq; [apply (pool_linked _ _ H)|].
    intros x Hx. apply list_elem_of_lookup_1 in Hx as [i Hi].
    apply elem_of_seq. pose proof (linked_lt _ _ _ _ (pool_linked _ _ H) Hi). lia.
  - rewrite length_seq, (pool_all _ _ H). done.
Qed.

Lemma DLinkedList_free_spec dl chain fuel :
  pool dl chain -> (Z.to_nat (capacity dl) <= fuel)%nat ->
  DLinkedList_free fuel dl []
  = Some (Ok (replicate (length (nodes dl)) (mk_node None None None), chain)).
Proof.
  intros H Hfuel. pose proof (pool_length _ _ H) as Hlen.
  pose proof (pool_capacity _ _ H) as Hcap.
  destruct (free_loop_spec chain dl [] fuel) as (dl' & Hrun & Hl & Hscr & _).
  - apply (pool_linked _ _ H).
  - rewrite (pool_front _ _ H). by destruct chain.
  - done.
  - apply Forall_forall. intros x _ Hx. by apply elem_of_nil in Hx.
  - lia.
  - unfold DLinkedList_free. rewrite Hrun. simpl. do 3 f_equal.
    apply list_eq. intros x.
    destruct (decide (x < length (nodes dl))%nat) as [Hlt|Hge].
    + rewrite lookup_replicate_2 by done. apply Hscr.
      rewrite (pool_covers _ _ H). apply elem_of_seq. lia.
    + rewrite (lookup_ge_None_2 (replicate _ _))
        by (rewrite length_replicate; lia).
      apply lookup_ge_None_2. lia.
Qed.

(** Taking the cell at position [S i] out of a chain. *)
Lemma linked_unlink m chain i p a n cp cn :
  linked m chain ->
  chain !! i = Some p -> chain !! S i = Some a -> chain !! S (S i) = Some n ->
  m !! p = Some cp -> m !! n = Some cn ->
  linked (<[p := set_next (Some n) cp]> (<[n := set_prev (Some p) cn]> m))
         (delete (S i) chain).
Proof.
  intros [Hnd H] Hp Ha Hn Hcp Hcn.
  assert (Hpn : p <> n).
  { intros ->. pose proof (NoDup_lookup _ _ _ _ Hnd Hp Hn). lia. }
  assert (Hplt : (p < length m)%nat) by (by eapply lookup_lt_Some).
  assert (Hnlt : (n < length m)%nat) by (by eapply lookup_lt_Some).
  split.
  - eapply sublist_NoDup; [done|apply sublist_delete].
  - intros j x Hj.
    destruct (decide (j < S i)%nat) as [Hlt|Hge].
    + rewrite list_lookup_delete_lt in Hj by lia.
      destruct (H j x Hj) as (c & Hc & Hnx & Hpv).
      assert (Hbef : before (delete (S i) chain) j = before chain j).
      { destruct j as [|k]; [done|]. simpl.
        by rewrite list_lookup_delete_lt by lia. }
      rewrite Hbef.
      assert (Hxn : x <> n).
      { intros ->. pose proof (NoDup_lookup _ _ _ _ Hnd Hj Hn). lia. }
      destruct (decide (j = i)) as [->|Hji].
      * assert (x = p) as -> by congruence.
        assert (c = cp) as -> by congruence.
        exists (set_next (Some n) cp).
        rewrite list_lookup_insert_eq by (by rewrite length_insert).
        split; [done|]. simpl. split; [|done].
        by rewrite list_lookup_delete_ge by lia.
      * assert (Hxp : x <> p).
        { intros ->. pose proof (NoDup_lookup _ _ _ _ Hnd Hj Hp). lia. }
        exists c. rewrite !list_lookup_insert_ne by done.
        split; [done|]. split; [|done].
        by rewrite list_lookup_delete_lt by lia.
    + rewrite list_lookup_delete_ge in Hj by lia.
      destruct (H (S j) x Hj) as (c & Hc & Hnx & Hpv).
      assert (Hxp : x <> p).
      { intros ->. pose proof (NoDup_lookup _ _ _ _ Hnd Hj Hp). lia. }
      rewrite (list_lookup_delete_ge _ _ (S j)) by lia.
      destruct (decide (j = S i)) as [->|Hji].
      * assert (x = n) as -> by congruence.
        assert (c = cn) as -> by congruence.
        exists (set_prev (Some p) cn).
        rewrite list_lookup_insert_ne by done.
        rewrite list_lookup_insert_eq by done.
        split; [done|]. simpl. split; [done|].
        by rewrite list_lookup_delete_lt by lia.
      * assert (Hxn : x <> n).
        { intros ->. pose proof (NoDup_lookup _ _ _ _ Hnd Hj Hn). lia. }
        exists c. rewrite !list_lookup_insert_ne by done.
        split; [done|]. split; [done|].
        destruct j as [|k]; [lia|]. simpl. simpl in Hpv.
        by rewrite list_lookup_delete_ge by lia.
Qed.

Lemma contents_ext m m' chain :
  (forall x, x ∈ chain -> cell_elem m' x = cell_elem m x) ->
  contents m' chain = contents m chain.
Proof.
  intros H. unfold contents. apply list_fmap_ext. intros i x Hi.
  apply H. by eapply list_elem_of_lookup_2.
Qed.

Lemma take_delete (l : list nat) i s :
  (i < s)%nat -> (i < length l)%nat ->
  take (s - 1) (delete i l) = delete i (take s l).
Proof.
  intros Hi Hl. apply list_eq. intros j.
  destruct (decide (j < s - 1)%nat) as [Hj|Hj].
  - rewrite lookup_take_lt by done.
    destruct (decide (j < i)%nat).
    + rewrite !list_lookup_delete_lt by done. by rewrite lookup_take_lt by lia.
    + rewrite !list_lookup_delete_ge by lia. by rewrite lookup_take_lt by lia.
  - rewrite lookup_take_ge by lia. symmetry. apply lookup_ge_None.
    rewrite length_delete.
    + rewrite length_take. lia.
    + apply lookup_lt_is_Some. rewrite length_take. lia.
Qed.

(** [Node_free] on a cell inside the pool, reached through a variable of
    the caller: the cell is unlinked from its two neighbours and released. *)
Lemma Node_free_interior dl chain i p a n :
  pool dl chain ->
  chain !! i = Some p -> chain !! S i = Some a -> chain !! S (S i) = Some n ->
  Some a <> list_end dl ->
  exists cp cn,
    nodes dl !! p = Some cp /\ nodes dl !! n = Some cn /\
    Node_free dl [] (Local (Some a))
    = Ok (with_nodes (set_capacity dl (capacity dl - 1))
            (<[a := mk_node None None None]>
               (<[p := set_next (Some n) cp]>
                  (<[n := set_prev (Some p) cn]> (nodes dl)))),
          [a], Local (Some a)).
Proof.
  intros H Hp Ha Hn Hend. pose proof (pool_linked _ _ H) as Hl.
  pose proof Hl as [Hnd Hc]. pose proof (pool_capacity _ _ H) as Hcap.
  pose proof (lookup_lt_Some _ _ _ Hn) as Hlen.
  destruct (Hc _ _ Hp) as (cp & Hcp & _).
  destruct (Hc _ _ Ha) as (ca & Hca & Hna & Hpa). simpl in Hpa.
  destruct (Hc _ _ Hn) as (cn & Hcn & _).
  rewrite Hn in Hna. rewrite Hp in Hpa.
  assert (Hap : a <> p).
  { intros ->. pose proof (NoDup_lookup _ _ _ _ Hnd Hp Ha). lia. }
  assert (Han : a <> n).
  { intros ->. pose proof (NoDup_lookup _ _ _ _ Hnd Hn Ha). lia. }
  assert (Hpn : p <> n).
  { intros ->. pose proof (NoDup_lookup _ _ _ _ Hnd Hp Hn). lia. }
  assert (Hfront : Some a <> front dl).
  { rewrite (pool_front _ _ H). intros Heq. symmetry in Heq.
    pose proof (NoDup_lookup _ _ _ _ Hnd Heq Ha). lia. }
  assert (Htail : Some a <> tail dl).
  { rewrite (pool_tail _ _ H). intros Heq. symmetry in Heq.
    pose proof (NoDup_lookup _ _ _ _ Hnd Heq Ha). lia. }
  assert (Hstart : Some a <> list_start dl).
  { rewrite (pool_start _ _ H). intros Heq. symmetry in Heq.
    pose proof (NoDup_lookup _ _ _ _ Hnd Heq Ha). lia. }
  assert (Hnone : forall x : nat, x ∉ ([] : list nat)) by (intros x Hx; by apply elem_of_nil in Hx).
  exists cp, cn. split_and!; [done|done|].
  unfold Node_free. cbn [deref].
  rewrite bool_decide_eq_true_2 by done.
  rewrite (proj2 (Z.ltb_lt 0 (capacity dl))) by lia. cbn [assert bind].
  rewrite (proj2 (Z.ltb_lt 1 (capacity dl))) by lia.
  rewrite (bool_decide_eq_false_2 _ Hfront), (bool_decide_eq_false_2 _ Htail).
  rewrite (load_live_Some _ _ _ _ (Hnone a) Hca).
  cbn -[load_live modify_live release]. rewrite Hna, Hpa.
  rewrite (modify_live_Some _ _ _ _ _ (Hnone n) Hcn).
  cbn -[load_live modify_live release].
  assert (Hca1 : <[n := set_prev (Some p) cn]> (nodes dl) !! a = Some ca)
    by (by rewrite list_lookup_insert_ne).
  assert (Hcn1 : <[n := set_prev (Some p) cn]> (nodes dl) !! n
                 = Some (set_prev (Some p) cn))
    by (apply list_lookup_insert_eq; by eapply lookup_lt_Some).
  assert (Hcp1 : <[n := set_prev (Some p) cn]> (nodes dl) !! p = Some cp)
    by (by rewrite list_lookup_insert_ne).
  rewrite (load_live_Some _ _ _ _ (Hnone a) Hca1).
  cbn -[load_live modify_live release]. rewrite Hna.
  rewrite (load_live_Some _ _ _ _ (Hnone n) Hcn1).
  cbn -[load_live modify_live release].
  rewrite (modify_live_Some _ _ _ _ _ (Hnone p) Hcp1).
  cbn -[load_live modify_live release].
  rewrite (bool_decide_eq_false_2 _ Hstart).
  cbn -[load_live modify_live release].
  rewrite (bool_decide_eq_false_2 _ Hend).
  cbn -[load_live modify_live release].
  assert (Hca2 : <[p := set_next (Some n) cp]>
                   (<[n := set_prev (Some p) cn]> (nodes dl)) !! a = Some ca)
    by (by rewrite !list_lookup_insert_ne).
  rewrite (modify_live_Some _ _ _ _ _ (Hnone a) Hca2). cbn -[release].
  erewrite release_Some; [done|apply Hnone|].
  apply list_lookup_insert_eq. rewrite !length_insert. by eapply lookup_lt_Some.
Qed.

Lemma remove_node_spec dl chain index a :
  pool dl chain -> 0 <= index < size dl ->
  chain !! Z.to_nat index = Some a ->
  exists dl' released,
    remove_node dl [] (Some a) = Ok (dl', released) /\
    size dl' = size dl - 1 /\
    to_list dl' = delete (Z.to_nat index) (to_list dl) /\
    (index = 0 \/ index = size dl - 1 ->
       released = [] /\ capacity dl' = capacity dl /\ nodes dl' = nodes dl) /\
    (0 < index < size dl - 1 ->
       released = [a] /\ capacity dl' = capacity dl - 1) /\
    exists chain',
      linked (nodes dl') chain' /\ front dl' = chain' !! 0%nat /\
      capacity dl' = Z.of_nat (length chain') /\
      length (nodes dl') = length (nodes dl) /\
      released ++ chain' ≡ₚ chain.
Proof.
  intros H Hi Ha. pose proof (pool_linked _ _ H) as Hl.
  pose proof Hl as [Hnd Hc]. pose proof (pool_capacity _ _ H) as Hcap.
  pose proof (pool_size _ _ H) as Hs. pose proof (pool_all _ _ H) as Hall.
  destruct (Hc _ _ Ha) as (ca & Hca & Hna & Hpa).
  assert (Hnone : forall x : nat, x ∉ ([] : list nat))
    by (intros x Hx; by apply elem_of_nil in Hx).
  assert (Htl : to_list dl = contents (nodes dl) (take (Z.to_nat (size dl)) chain)).
  { rewrite (to_list_contents _ _ H). unfold contents. by rewrite fmap_take. }
  unfold remove_node. rewrite bool_decide_eq_true_2 by done.
  rewrite (proj2 (Z.ltb_lt 0 (size dl))) by lia. cbn [assert bind].
  destruct (decide (index = 0)) as [->|Hne0].
  - (* the cell at list_start *)
    change (Z.to_nat 0) with 0%nat in *.
    assert (Hst : Some a = list_start dl) by (by rewrite (pool_start _ _ H)).
    rewrite (bool_decide_eq_true_2 _ Hst).
    rewrite (load_live_Some _ _ _ _ (Hnone a) Hca). simpl.
    eexists _, _. split; [done|]. simpl.
    split_and!; [done| |done|lia|exists chain; by rewrite (pool_front _ _ H)].
    rewrite Htl. unfold to_list.
      cbn [nodes size list_start set_size set_list_start set_list_end
           with_nodes set_capacity]. rewrite Hna.
    rewrite (chase_next _ chain) by (done || lia).
    unfold contents. rewrite <- list_fmap_delete. f_equal.
    rewrite take_drop_commute.
    replace (1 + (Z.to_nat (size dl - 1)))%nat with (Z.to_nat (size dl)) by lia.
    by destruct (take (Z.to_nat (size dl)) chain).
  - assert (Hst : Some a <> list_start dl).
    { rewrite (pool_start _ _ H). intros Heq. symmetry in Heq.
      pose proof (NoDup_lookup _ _ _ _ Hnd Heq Ha). lia. }
    rewrite (bool_decide_eq_false_2 _ Hst).
    destruct (decide (index = size dl - 1)) as [Hlast|Hnlast].
    + (* the cell at list_end *)
      assert (Hen : Some a = list_end dl).
      { rewrite (pool_end _ _ H), <- Ha. f_equal. lia. }
      rewrite (bool_decide_eq_true_2 _ Hen).
      rewrite (load_live_Some _ _ _ _ (Hnone a) Hca). simpl.
      eexists _, _. split; [done|]. simpl.
    split_and!; [done| |done|lia|exists chain; by rewrite (pool_front _ _ H)].
      rewrite Htl. unfold to_list.
      cbn [nodes size list_start set_size set_list_start set_list_end
           with_nodes set_capacity]. rewrite (pool_start _ _ H).
      rewrite (chase_next _ chain) by (done || lia).
      rewrite drop_0. unfold contents. rewrite <- list_fmap_delete. f_equal.
      rewrite delete_take_drop, take_take.
      rewrite (drop_ge (take _ _)) by (rewrite length_take; lia).
      rewrite app_nil_r. f_equal. lia.
    + (* a cell strictly inside the window *)
      assert (Hen : Some a <> list_end dl).
      { rewrite (pool_end _ _ H). intros Heq. symmetry in Heq.
        pose proof (NoDup_lookup _ _ _ _ Hnd Heq Ha). lia. }
      rewrite (bool_decide_eq_false_2 _ Hen).
      destruct (Z.to_nat index) as [|i] eqn:Ei; [lia|].
      destruct (lookup_lt_is_Some_2 chain i) as [p Hp]; [lia|].
      destruct (lookup_lt_is_Some_2 chain (S (S i))) as [n Hn]; [lia|].
      destruct (Node_free_interior dl chain i p a n H Hp Ha Hn Hen)
        as (cp & cn & Hcp & Hcn & ->).
      pose proof (linked_unlink _ _ _ _ _ _ _ _ Hl Hp Ha Hn Hcp Hcn) as Hl'.
      assert (Hl'' : linked
                (<[a := mk_node None None None]>
                   (<[p := set_next (Some n) cp]>
                      (<[n := set_prev (Some p) cn]> (nodes dl))))
                (delete (S i) chain)).
      { apply linked_outside; [done| |rewrite !length_insert; by eapply lookup_lt_Some].
        intros Hin. apply list_elem_of_lookup_1 in Hin as [j Hj].
        destruct (decide (j < S i)%nat).
        - rewrite list_lookup_delete_lt in Hj by done.
          pose proof (NoDup_lookup _ _ _ _ Hnd Hj Ha). lia.
        - rewrite list_lookup_delete_ge in Hj by lia.
          pose proof (NoDup_lookup _ _ _ _ Hnd Hj Ha). lia. }
      simpl. eexists _, _. split; [done|]. simpl.
      split_and!; [done| |lia|done|].
      2:{ exists (delete (S i) chain). split_and!.
          - done.
          - rewrite (pool_front _ _ H). by rewrite list_lookup_delete_lt by lia.
          - rewrite length_delete by (by exists a). lia.
          - by rewrite !length_insert.
          - symmetry. by apply delete_Permutation. }
      set (m' := <[a := mk_node None None None]> _) in *.
      rewrite Htl. unfold to_list.
      cbn [nodes size list_start set_size set_list_start set_list_end
           with_nodes set_capacity]. rewrite (pool_start _ _ H).
      assert (H0 : chain !! 0%nat = delete (S i) chain !! 0%nat)
        by (by rewrite list_lookup_delete_lt by lia).
      rewrite H0, (chase_next _ (delete (S i) chain)); [|done|].
      2:{ subst m'. rewrite !length_insert, Hall.
          rewrite length_delete by (by exists a). lia. }
      rewrite drop_0.
      replace (Z.to_nat (size dl - 1)) with (Z.to_nat (size dl) - 1)%nat by lia.
      rewrite take_delete by (lia || (by eapply lookup_lt_Some)).
      unfold contents at 2. rewrite <- list_fmap_delete.
      apply contents_ext. intros x Hx. subst m'. unfold cell_elem.
      assert (Hxa : x <> a).
      { intros ->. apply list_elem_of_lookup_1 in Hx as [j Hj].
        assert (Hj' : delete (S i) chain !! j = Some a).
        { destruct (decide (j < S i)%nat).
          - rewrite list_lookup_delete_lt in Hj |- * by done.
            by rewrite lookup_take_lt in Hj by lia.
          - rewrite list_lookup_delete_ge in Hj |- * by lia.
            apply lookup_take_Some in Hj as [Hj _]. done. }
        destruct Hl'' as [_ Hc'']. destruct (Hc'' _ _ Hj') as (c & Hcx & _).
        clear -Hnd Ha Hj'.
        destruct (decide (j < S i)%nat).
        - rewrite list_lookup_delete_lt in Hj' by done.
          pose proof (NoDup_lookup _ _ _ _ Hnd Hj' Ha). lia.
        - rewrite list_lookup_delete_ge in Hj' by lia.
          pose proof (NoDup_lookup _ _ _ _ Hnd Hj' Ha). lia. }
      rewrite list_lookup_insert_ne by done.
      destruct (decide (x = p)) as [->|Hxp].
      * rewrite list_lookup_insert_eq
          by (rewrite length_insert; by eapply lookup_lt_Some).
        by rewrite Hcp.
      * rewrite list_lookup_insert_ne by done.
        destruct (decide (x = n)) as [->|Hxn].
        -- rewrite list_lookup_insert_eq by (by eapply lookup_lt_Some).
           by rewrite Hcn.
        -- by rewrite list_lookup_insert_ne.
Qed.

(** ** Further properties of the code *)

Lemma get_lookup dl chain index v :
  pool dl chain -> 0 <= index < size dl ->
  to_list dl !! Z.to_nat index = Some v -> DLinkedList_get dl index = Ok v.
Proof.
  intros H Hi Hv. destruct (get_to_list dl chain index H Hi) as (w & Hget & Hw).
  congruence.
Qed.

(** What one successful call does to size, capacity and the store. *)
Lemma exec_effect o dl chain dl' :
  pool dl chain -> exec o dl = Ok dl' ->
  dl' = dl \/
  (size dl' = size dl /\ 0 < size dl /\ capacity dl' = capacity dl /\
   length (nodes dl') = length (nodes dl)) \/
  (size dl' = size dl + 1 /\
   capacity dl' = Z.max (capacity dl) (size dl + 1) /\
   exists chain', pool dl' chain').
Proof.
  intros H Hstep. pose proof (pool_size _ _ H) as Hs.
  assert (Happend : forall e, DLinkedList_append dl e = Ok dl' ->
            size dl' = size dl + 1 /\
            capacity dl' = Z.max (capacity dl) (size dl + 1) /\
            exists chain', pool dl' chain').
  { intros e Happ. destruct (decide (size dl < INT_MAX)) as [Hlt|Hge].
    - destruct (append_spec dl chain e H Hlt) as (d & c & Hd & Hp & Hsz & Hc & _).
      rewrite Hd in Happ. injection Happ as <-. eauto.
    - rewrite (append_overflow dl chain) in Happ by (done || lia). done. }
  destruct o; simpl in Hstep.
  - left. by injection Hstep as <-.
  - left. destruct (DLinkedList_get dl index); [|done]. by injection Hstep as <-.
  - left. destruct (DLinkedList_first dl); [|done]. by injection Hstep as <-.
  - left. destruct (DLinkedList_last dl); [|done]. by injection Hstep as <-.
  - destruct (decide (0 <= index < size dl)) as [Hi|Hi].
    + destruct (set_to_list dl chain e index H Hi)
        as (d & Hset & Hp & Hsz & Hc & _).
      rewrite Hset in Hstep. injection Hstep as <-.
      right. left. split_and!; try done; try lia.
      by rewrite (pool_all _ _ Hp), (pool_all _ _ H).
    + unfold DLinkedList_set in Hstep.
      destruct (Z.leb_spec 0 index); [|done].
      destruct (Z.leb_spec index (size dl)); [|done]. simpl in Hstep.
      destruct (Z.eqb_spec index (size dl)); [|lia].
      right. right. by apply (Happend e).
  - right. right. by apply (Happend e).
  - right. right. destruct (decide (size dl < INT_MAX)) as [Hlt|Hge].
    + destruct (decide (size dl = 0 \/ size dl = capacity dl)) as [Hc|Hc].
      * destruct (prepend_spec dl chain e H Hlt Hc) as (d & c & Hd & Hp & Hsz & Hcp & _).
        rewrite Hd in Hstep. injection Hstep as <-. eauto.
      * rewrite (prepend_spare dl chain) in Hstep by (done || lia). done.
    + rewrite (prepend_overflow dl chain) in Hstep by (done || lia). done.
  - left. by injection Hstep as <-.
  - left. by injection Hstep as <-.
  - left. by injection Hstep as <-.
Qed.

(** X1: [DLinkedList_free] on a reachable container ends after [capacity]
    calls of [Node_free], without a failed assertion and without touching
    a released or unallocated cell; it releases the cells of the pool in
    order from [front] to [tail], each once; these are all the cells ever
    allocated, and each is left with [NULL] in its three fields. *)
Theorem DLinkedList_free_releases_pool dl fuel :
  reachable dl -> (Z.to_nat (capacity dl) <= fuel)%nat ->
  DLinkedList_free fuel dl []
  = Some (Ok (replicate (length (nodes dl)) (mk_node None None None),
              pool_cells dl)) /\
  NoDup (pool_cells dl) /\
  pool_cells dl ≡ₚ seq 0 (length (nodes dl)).
Proof.
  intros Hr Hfuel. destruct (reachable_pool dl Hr) as [chain H].
  rewrite (pool_cells_chain _ _ H). split_and!.
  - by apply DLinkedList_free_spec.
  - apply (pool_linked _ _ H).
  - by apply pool_covers.
Qed.

(** X2: [remove_node] on the cell [search] finds at [index] takes exactly
    the element at [index] out of what the client reads back and decrements
    the size.  At either end of the window it only moves [list_start] or
    [list_end] and keeps the cell; strictly inside the window it unlinks
    the cell and releases it, and the capacity drops by one. *)
Theorem remove_node_deletes_element dl index :
  reachable dl -> 0 <= index < size dl ->
  exists a dl' released,
    search dl index = Ok (Some a) /\
    remove_node dl [] (Some a) = Ok (dl', released) /\
    DLinkedList_length dl' = DLinkedList_length dl - 1 /\
    to_list dl' = delete (Z.to_nat index) (to_list dl) /\
    (index = 0 \/ index = size dl - 1 ->
       released = [] /\ capacity dl' = capacity dl /\ nodes dl' = nodes dl) /\
    (0 < index < size dl - 1 ->
       released = [a] /\ capacity dl' = capacity dl - 1).
Proof.
  intros Hr Hi. destruct (reachable_pool dl Hr) as [chain H].
  pose proof (pool_capacity _ _ H). pose proof (pool_size _ _ H).
  destruct (search_spec dl chain index H Hi) as (Hsearch & _).
  destruct (lookup_lt_is_Some_2 chain (Z.to_nat index)) as [a Ha]; [lia|].
  destruct (remove_node_spec dl chain index a H Hi Ha)
    as (dl' & released & Hrm & Hsz & Hl & Hends & Hin & _).
  exists a, dl', released. rewrite Hsearch, Ha. by split_and!.
Qed.

(** X3: removing the first element with [remove_node] and prepending [e]
    does what [DLinkedList_set] at index 0 does, and removing the last
    element and appending [e] does what [DLinkedList_set] at the last index
    does: the vacated cell is used again and nothing is allocated. *)
Theorem remove_node_then_insert_is_set dl e :
  reachable dl -> 2 <= size dl ->
  exists dl_set0 dl_setn,
    DLinkedList_set dl e 0 = Ok dl_set0 /\
    DLinkedList_set dl e (size dl - 1) = Ok dl_setn /\
    (do r <- remove_node dl [] (list_start dl);
     DLinkedList_prepend (fst r) e) = Ok dl_set0 /\
    (do r <- remove_node dl [] (list_end dl);
     DLinkedList_append (fst r) e) = Ok dl_setn /\
    length (nodes dl_set0) = length (nodes dl) /\
    length (nodes dl_setn) = length (nodes dl).
Proof.
  intros Hr Hsz. destruct (reachable_pool dl Hr) as [chain H].
  pose proof (pool_capacity _ _ H) as Hcap. pose proof (pool_size _ _ H) as Hs.
  pose proof (pool_bounds _ _ H) as Hb.
  pose proof (pool_linked _ _ H) as [Hnd Hc].
  assert (Hnone : forall x : nat, x ∉ ([] : list nat))
    by (intros x Hx; by apply elem_of_nil in Hx).
  destruct (set_spec dl chain e 0 H) as (a & ca & Ha & Hca & Hset0 & _); [lia|].
  destruct (set_spec dl chain e (size dl - 1) H)
    as (z & cz & Hz & Hcz & Hsetn & _); [lia|].
  change (Z.to_nat 0) with 0%nat in Ha.
  destruct (Hc _ _ Ha) as (ca' & Hca' & Hna & _).
  assert (ca' = ca) as -> by congruence.
  destruct (Hc _ _ Hz) as (cz' & Hcz' & _ & Hpz).
  assert (cz' = cz) as -> by congruence.
  destruct (lookup_lt_is_Some_2 chain 1) as [b Hb1]; [lia|].
  destruct (Hc _ _ Hb1) as (cb & Hcb & _ & Hpb). simpl in Hpb.
  destruct (lookup_lt_is_Some_2 chain (Z.to_nat (size dl - 1) - 1)) as [y Hy];
    [lia|].
  destruct (Hc _ _ Hy) as (cy & Hcy & Hny & _).
  replace (S (Z.to_nat (size dl - 1) - 1)) with (Z.to_nat (size dl - 1)) in Hny
    by lia.
  destruct (Z.to_nat (size dl - 1)) as [|k] eqn:Ek; [lia|].
  simpl in Hpz. replace (S k - 1)%nat with k in Hy by lia.
  assert (Hab : a <> b).
  { intros ->. pose proof (NoDup_lookup _ _ _ _ Hnd Ha Hb1). lia. }
  assert (Hzy : z <> y).
  { intros ->. pose proof (NoDup_lookup _ _ _ _ Hnd Hz Hy). lia. }
  assert (Haz : a <> z).
  { intros ->. pose proof (NoDup_lookup _ _ _ _ Hnd Ha Hz). lia. }
  eexists _, _. split; [exact Hset0|]. split; [exact Hsetn|].
  split_and!.
  - unfold remove_node. rewrite (pool_start _ _ H), Ha.
    rewrite !bool_decide_eq_true_2 by done.
    rewrite (proj2 (Z.ltb_lt 0 (size dl))) by lia. cbn [assert bind].
    rewrite (load_live_Some _ _ _ _ (Hnone a) Hca). cbn [bind fst].
    rewrite Hna, Hb1.
    unfold DLinkedList_prepend.
    cbn [size set_size set_list_start capacity nodes list_start front].
    destruct (Z.eqb_spec (size dl - 1) 0); [lia|].
    destruct (Z.eqb_spec (size dl - 1) (capacity dl)); [lia|].
    rewrite (load_Some _ _ _ Hcb). cbn [bind]. rewrite Hpb, Ha.
    rewrite bool_decide_eq_true_2 by done. cbn [assert bind].
    rewrite (modify_Some _ _ _ _ Hca). cbn [bind].
    rewrite (load_Some (<[a := set_elem e ca]> (nodes dl)) b cb)
      by (by rewrite list_lookup_insert_ne).
    cbn [bind nodes front tail list_start list_end capacity size].
    rewrite incr_lt by lia. cbn [bind]. rewrite Hpb, Ha.
    unfold with_nodes. cbn [tail list_end set_size set_list_start].
    rewrite (pool_start _ _ H), Ha. do 2 f_equal. lia.
  - unfold remove_node. rewrite (pool_end _ _ H).
    replace (Z.to_nat (size dl) - 1)%nat with (S k) by lia. rewrite Hz.
    rewrite bool_decide_eq_true_2 by done.
    rewrite (proj2 (Z.ltb_lt 0 (size dl))) by lia. cbn [assert bind].
    rewrite (pool_start _ _ H), Ha.
    rewrite (bool_decide_eq_false_2 (Some z = Some a)) by congruence.
    rewrite bool_decide_eq_true_2 by done.
    rewrite (load_live_Some _ _ _ _ (Hnone z) Hcz). cbn [bind fst].
    rewrite Hpz, Hy.
    unfold DLinkedList_append.
    cbn [size set_size set_list_end capacity nodes list_end tail].
    destruct (Z.eqb_spec (size dl - 1) 0); [lia|].
    destruct (Z.eqb_spec (size dl - 1) (capacity dl)); [lia|].
    rewrite (load_Some _ _ _ Hcy). cbn [bind]. rewrite Hny, Hz.
    rewrite bool_decide_eq_true_2 by done. cbn [assert bind].
    rewrite (modify_Some _ _ _ _ Hcz). cbn [bind].
    rewrite (load_Some (<[z := set_elem e cz]> (nodes dl)) y cy)
      by (by rewrite list_lookup_insert_ne).
    cbn [bind nodes front tail list_start list_end capacity size].
    rewrite incr_lt by lia. cbn [bind]. rewrite Hny, Hz.
    unfold with_nodes. cbn [front list_start set_size set_list_end].
    rewrite (pool_end _ _ H).
    replace (Z.to_nat (size dl) - 1)%nat with (S k) by lia. rewrite Hz.
    do 2 f_equal. lia.
  - simpl. by rewrite length_insert.
  - simpl. by rewrite length_insert.
Qed.

(** X4: on a reachable container [DLinkedList_append] returns exactly when
    [size < INT_MAX]; then the size grows by one and the capacity becomes
    [max(capacity, size + 1)], so one cell is allocated when, and only
    when, the container is full; at [size == INT_MAX] the increment
    overflows. *)
Theorem append_succeeds_below_INT_MAX dl e :
  reachable dl ->
  (size dl < INT_MAX ->
     exists dl',
       DLinkedList_append dl e = Ok dl' /\ reachable dl' /\
       DLinkedList_length dl' = DLinkedList_length dl + 1 /\
       capacity dl' = Z.max (capacity dl) (size dl + 1) /\
       Z.of_nat (length (nodes dl')) = capacity dl') /\
  (INT_MAX <= size dl -> DLinkedList_append dl e = Fail SignedOverflow).
Proof.
  intros Hr. destruct (reachable_pool dl Hr) as [chain H]. split.
  - intros Hlt.
    destruct (append_spec dl chain e H Hlt) as (dl' & chain' & Happ & H' & Hsz & Hc & _).
    exists dl'. split_and!; try done.
    + by apply (reachable_step (Append e) dl).
    + by rewrite (pool_all _ _ H'), (pool_capacity _ _ H').
  - intros Hge. by apply (append_overflow dl chain).
Qed.

(** X5: after [DLinkedList_append] on a non-empty reachable container the
    new element is read back at the old size and by [DLinkedList_last], and
    every earlier index reads back what it did before. *)
Theorem append_then_get dl e :
  reachable dl -> 1 <= size dl < INT_MAX ->
  exists dl',
    DLinkedList_append dl e = Ok dl' /\
    DLinkedList_get dl' (size dl) = Ok e /\
    DLinkedList_last dl' = Ok e /\
    forall index, 0 <= index < size dl ->
      DLinkedList_get dl' index = DLinkedList_get dl index.
Proof.
  intros Hr Hsz. destruct (reachable_pool dl Hr) as [chain H].
  destruct (append_to_list dl chain e H Hsz)
    as (dl' & chain' & Happ & H' & Hsz' & Hc & Hl).
  pose proof (length_to_list _ _ H) as Hlen.
  exists dl'. split_and!; [done| | |].
  - apply (get_lookup dl' chain'); [done|lia|].
    rewrite Hl, lookup_app_r by lia.
    by replace (Z.to_nat (size dl) - length (to_list dl))%nat with 0%nat by lia.
  - destruct (last_to_list dl' chain' H') as (v & Hlast & Hv); [lia|].
    rewrite Hlast. f_equal.
    rewrite Hl, Hsz', lookup_app_r in Hv by lia.
    replace (Z.to_nat (size dl + 1) - 1 - length (to_list dl))%nat
      with 0%nat in Hv by lia.
    simpl in Hv. congruence.
  - intros index Hi.
    destruct (get_to_list dl chain index H Hi) as (v & Hget & Hv).
    rewrite Hget. apply (get_lookup dl' chain'); [done|lia|].
    rewrite Hl, lookup_app_l by lia. done.
Qed.

(** X6: [DLinkedList_set] below [size] on a reachable container overwrites
    in place: the element is read back at [index], every other index reads
    back what it did before, and size, capacity, the four pointers and the
    number of cells stay as they were. *)
Theorem set_then_get dl e index :
  reachable dl -> 0 <= index < size dl ->
  exists dl',
    DLinkedList_set dl e index = Ok dl' /\
    DLinkedList_get dl' index = Ok e /\
    (forall j, j <> index -> DLinkedList_get dl' j = DLinkedList_get dl j) /\
    size dl' = size dl /\ capacity dl' = capacity dl /\
    front dl' = front dl /\ tail dl' = tail dl /\
    list_start dl' = list_start dl /\ list_end dl' = list_end dl /\
    length (nodes dl') = length (nodes dl).
Proof.
  intros Hr Hi. destruct (reachable_pool dl Hr) as [chain H].
  destruct (set_to_list dl chain e index H Hi)
    as (dl' & Hset & H' & Hsz & Hc & Hf & Ht & Hs & He & Hl).
  pose proof (length_to_list _ _ H) as Hlen.
  exists dl'. split_and!; try done.
  - apply (get_lookup dl' chain); [done|lia|].
    rewrite Hl. apply list_lookup_insert_eq. lia.
  - intros j Hj. destruct (decide (0 <= j < size dl)) as [Hin|Hout].
    + destruct (get_to_list dl chain j H Hin) as (v & Hget & Hv).
      rewrite Hget. apply (get_lookup dl' chain); [done|lia|].
      rewrite Hl, list_lookup_insert_ne by lia. done.
    + rewrite !get_out_of_range by lia. done.
  - by rewrite (pool_all _ _ H'), (pool_all _ _ H).
Qed.

(** X7: on a reachable container [DLinkedList_prepend] returns exactly when
    the container is empty or full (and [size < INT_MAX]); with spare
    capacity and at least one element it fails [assert(node != NULL)]. *)
Theorem prepend_needs_empty_or_full dl e :
  reachable dl -> size dl < INT_MAX ->
  ((exists dl', DLinkedList_prepend dl e = Ok dl')
   <-> size dl = 0 \/ size dl = capacity dl) /\
  (0 < size dl < capacity dl ->
   DLinkedList_prepend dl e = Fail AssertionFailed).
Proof.
  intros Hr Hlt. destruct (reachable_pool dl Hr) as [chain H].
  pose proof (pool_size _ _ H) as Hs. split; [split|].
  - intros [dl' Hpre].
    destruct (decide (size dl = 0 \/ size dl = capacity dl)) as [Hc|Hc]; [done|].
    rewrite (prepend_spare dl chain) in Hpre by (done || lia). done.
  - intros Hc.
    destruct (prepend_spec dl chain e H Hlt Hc) as (dl' & _ & Hpre & _). eauto.
  - intros Hsp. by apply (prepend_spare dl chain).
Qed.

(** X8: after [DLinkedList_prepend] on an empty or a full reachable
    container the new element is read back at index 0 and by
    [DLinkedList_first], every old index reads back one position later, and
    the capacity becomes [max(capacity, size + 1)]. *)
Theorem prepend_then_get dl e :
  reachable dl -> size dl < INT_MAX ->
  size dl = 0 \/ size dl = capacity dl ->
  exists dl',
    DLinkedList_prepend dl e = Ok dl' /\
    DLinkedList_length dl' = DLinkedList_length dl + 1 /\
    capacity dl' = Z.max (capacity dl) (size dl + 1) /\
    DLinkedList_get dl' 0 = Ok e /\
    DLinkedList_first dl' = Ok e /\
    forall index, 0 <= index < size dl ->
      DLinkedList_get dl' (index + 1) = DLinkedList_get dl index.
Proof.
  intros Hr Hlt Hc. destruct (reachable_pool dl Hr) as [chain H].
  pose proof (pool_size _ _ H) as Hs.
  destruct (prepend_to_list dl chain e H Hlt Hc)
    as (dl' & chain' & Hpre & H' & Hsz' & Hcap & Hl).
  exists dl'. split_and!; try done.
  - apply (get_lookup dl' chain'); [done|lia|]. by rewrite Hl.
  - destruct (first_to_list dl' chain' H') as (v & Hfirst & Hv); [lia|].
    rewrite Hfirst, Hl in *. simpl in Hv. congruence.
  - intros index Hi.
    destruct (get_to_list dl chain index H Hi) as (v & Hget & Hv).
    rewrite Hget. apply (get_lookup dl' chain'); [done|lia|].
    rewrite Hl. replace (Z.to_nat (index + 1)) with (S (Z.to_nat index)) by lia.
    done.
Qed.

(** X9: on a non-empty reachable container [DLinkedList_first] is
    [DLinkedList_get] at 0 and [DLinkedList_last] is [DLinkedList_get] at
    [size - 1]. *)
Theorem first_last_are_get dl :
  reachable dl -> 0 < size dl ->
  DLinkedList_first dl = DLinkedList_get dl 0 /\
  DLinkedList_last dl = DLinkedList_get dl (size dl - 1).
Proof.
  intros Hr Hpos. destruct (reachable_pool dl Hr) as [chain H].
  destruct (first_to_list dl chain H Hpos) as (v & Hfirst & Hv).
  destruct (last_to_list dl chain H Hpos) as (w & Hlast & Hw).
  rewrite Hfirst, Hlast. split; symmetry.
  - by apply (get_lookup dl chain); [|lia|].
  - apply (get_lookup dl chain); [done|lia|].
    rewrite <- Hw. f_equal. lia.
Qed.

(** X10: appending [e :: es] to a new container gives length [1 + |es|]
    and capacity [max(hint, 1 + |es|)]; every element of [es] is read back
    at its index, in append order; index 0 reads back [e] when the new pool
    has one cell (hint 0 or 1) and [NULL] otherwise. *)
Theorem appends_read_back hint e es :
  0 <= hint < INT_MAX -> 1 + Z.of_nat (length es) <= INT_MAX ->
  exists dl,
    scenario hint (append_all (e :: es)) = Ok dl /\
    DLinkedList_length dl = 1 + Z.of_nat (length es) /\
    capacity dl = Z.max hint (1 + Z.of_nat (length es)) /\
    DLinkedList_get dl 0 = Ok (if hint <=? 1 then e else None) /\
    forall i v, es !! i = Some v ->
      DLinkedList_get dl (1 + Z.of_nat i) = Ok v.
Proof.
  intros Hh Hle.
  destruct (appends_from_new hint e es Hh Hle)
    as (dl & chain & Hrun & H & Hsz & Hcap & Hl).
  exists dl. split_and!; try done.
  - apply (get_lookup dl chain); [done|lia|]. by rewrite Hl.
  - intros i v Hv. pose proof (lookup_lt_Some _ _ _ Hv).
    apply (get_lookup dl chain); [done|lia|]. rewrite Hl.
    by replace (Z.to_nat (1 + Z.of_nat i)) with (S i) by lia.
Qed.

(** X11: prepending [e :: es] to a new container whose pool has one cell
    (hint 0 or 1) gives length and capacity [1 + |es|], and the elements
    are read back in reverse order of prepending. *)
Theorem prepends_read_back hint e es :
  0 <= hint <= 1 -> 1 + Z.of_nat (length es) <= INT_MAX ->
  exists dl,
    scenario hint (prepend_all (e :: es)) = Ok dl /\
    DLinkedList_length dl = 1 + Z.of_nat (length es) /\
    capacity dl = 1 + Z.of_nat (length es) /\
    forall i v, reverse (e :: es) !! i = Some v ->
      DLinkedList_get dl (Z.of_nat i) = Ok v.
Proof.
  intros Hh Hle.
  destruct (prepends_from_new hint e es Hh Hle)
    as (dl & chain & Hrun & H & Hsz & Hcap & Hl).
  exists dl. split_and!; try done.
  intros i v Hv. pose proof (lookup_lt_Some _ _ _ Hv) as Hi.
  rewrite length_reverse in Hi. cbn [length] in Hi.
  apply (get_lookup dl chain); [done|lia|]. rewrite Hl.
  by rewrite Nat2Z.id.
Qed.

(** X12: in every reachable state the number of cells allocated so far is
    the capacity, and every allocated cell is one of the pool. *)
Theorem allocated_cells_are_the_pool dl :
  reachable dl ->
  Z.of_nat (length (nodes dl)) = capacity dl /\
  forall a, (a < length (nodes dl))%nat -> a ∈ pool_cells dl.
Proof.
  intros Hr. destruct (reachable_pool dl Hr) as [chain H]. split.
  - by rewrite (pool_all _ _ H), (pool_capacity _ _ H).
  - intros a Ha. rewrite (pool_cells_chain _ _ H), (pool_covers _ _ H).
    apply elem_of_seq. lia.
Qed.

(** X13: no public call shrinks a reachable container: size and capacity
    stay or grow by one; the capacity grows only when the container was
    full and an element was added, and then exactly one cell is
    allocated. *)
Theorem calls_only_grow o dl dl' :
  reachable dl -> exec o dl = Ok dl' ->
  size dl <= size dl' <= size dl + 1 /\
  capacity dl <= capacity dl' <= capacity dl + 1 /\
  (capacity dl < capacity dl' ->
     size dl = capacity dl /\ size dl' = size dl + 1) /\
  Z.of_nat (length (nodes dl')) - Z.of_nat (length (nodes dl))
  = capacity dl' - capacity dl.
Proof.
  intros Hr Hstep. destruct (reachable_pool dl Hr) as [chain H].
  pose proof (pool_size _ _ H) as Hs. pose proof (pool_all _ _ H) as Hall.
  pose proof (pool_capacity _ _ H) as Hcap.
  destruct (exec_effect o dl chain dl' H Hstep)
    as [->|[(Hsz & _ & Hc & Hl)|(Hsz & Hc & chain' & H')]].
  - lia.
  - lia.
  - pose proof (pool_all _ _ H'). pose proof (pool_capacity _ _ H'). lia.
Qed.

(** X14: a reachable container of size 0 is one [DLinkedList_new] has just
    returned: once an element is in, the container never gets empty
    again. *)
Theorem empty_is_new dl :
  reachable dl -> size dl = 0 ->
  exists hint, DLinkedList_new hint = Ok dl.
Proof.
  induction 1 as [hint dl Hnew|o dl dl' Hr IH Hstep]; intros H0.
  - by exists hint.
  - destruct (reachable_pool dl Hr) as [chain H].
    pose proof (pool_size _ _ H) as Hs.
    destruct (exec_effect o dl chain dl' H Hstep)
      as [->|[(Hsz & Hpos & _)|(Hsz & _)]]; [by apply IH|lia|lia].
Qed.


(** X16: in every reachable state the pool is linked both ways: following
    [prev] from [tail] visits the cells of the pool in reverse; and
    [list_end] is [max(size, 1) - 1] steps of [next] after [list_start],
    which is as many steps of [prev] before [list_end]. *)
Theorem pool_linked_both_ways dl :
  reachable dl ->
  chase prev (nodes dl) (S (length (nodes dl))) (tail dl)
  = reverse (pool_cells dl) /\
  follow next (nodes dl) (Z.to_nat (Z.max (size dl) 1 - 1)) (list_start dl)
  = Ok (list_end dl) /\
  follow prev (nodes dl) (Z.to_nat (Z.max (size dl) 1 - 1)) (list_end dl)
  = Ok (list_start dl).
Proof.
  intros Hr. destruct (reachable_pool dl Hr) as [chain H].
  pose proof (pool_size _ _ H) as Hs. pose proof (pool_all _ _ H) as Hall.
  pose proof (pool_capacity _ _ H) as Hcap.
  pose proof (pool_bounds _ _ H) as Hb. pose proof (pool_linked _ _ H) as Hl.
  rewrite (pool_cells_chain _ _ H). split_and!.
  - rewrite (pool_tail _ _ H), (chase_prev _ chain) by (done || lia).
    f_equal. apply take_ge. lia.
  - rewrite (pool_start _ _ H), (follow_next _ chain) by (done || lia).
    rewrite (pool_end _ _ H). do 2 f_equal. lia.
  - rewrite (pool_end _ _ H), (follow_prev _ chain) by (done || lia).
    rewrite (pool_start _ _ H). do 2 f_equal. lia.
Qed.

(** X17: on a reachable container with [size < INT_MAX],
    [DLinkedList_set] fails an assertion exactly when [index < 0] or
    [index > size], and returns a reachable container otherwise. *)
Theorem set_fails_outside_range dl e index :
  reachable dl -> size dl < INT_MAX ->
  (DLinkedList_set dl e index = Fail AssertionFailed
   <-> index < 0 \/ size dl < index) /\
  (0 <= index <= size dl ->
   exists dl', DLinkedList_set dl e index = Ok dl' /\ reachable dl').
Proof.
  intros Hr Hlt.
  assert (Hok : 0 <= index <= size dl ->
            exists dl', DLinkedList_set dl e index = Ok dl' /\ reachable dl').
  { intros Hi. destruct (reachable_pool dl Hr) as [chain H].
    destruct (decide (index = size dl)) as [->|Hne].
    - destruct (append_spec dl chain e H Hlt) as (dl' & _ & Happ & _).
      exists dl'. rewrite set_at_size.
      destruct (Z.leb_spec 0 (size dl)); [|lia]. split; [done|].
      apply (reachable_step (SetAt e (size dl)) dl); [done|]. simpl.
      rewrite set_at_size. by destruct (Z.leb_spec 0 (size dl)); [|lia].
    - destruct (set_spec dl chain e index H) as (a & c & _ & _ & Hset & _);
        [lia|].
      eexists. split; [exact Hset|].
      by apply (reachable_step (SetAt e index) dl). }
  split; [split|done].
  - intros Hfail. destruct (decide (0 <= index <= size dl)) as [Hi|Hi]; [|lia].
    destruct (Hok Hi) as (dl' & Hset & _). congruence.
  - intros Hi. unfold DLinkedList_set.
    destruct (Z.leb_spec 0 index); [|done].
    destruct (Z.leb_spec index (size dl)); [lia|done].
Qed.

(** X18: for every index in range of a reachable container [split_search]
    alone finds the cell [search] finds: the two shortcuts of [search] for
    the first and the last index change no result. *)
Theorem split_search_is_search dl index :
  reachable dl -> 0 <= index < size dl ->
  split_search dl index = search dl index.
Proof.
  intros Hr Hi. destruct (reachable_pool dl Hr) as [chain H].
  destruct (search_spec dl chain index H Hi) as (-> & -> & _). done.
Qed.

(** X19: destroying the container after a [remove_node] is safe: the
    destructor returns, and the cells released by the two calls together
    are all the allocated cells, each exactly once. *)
Theorem free_after_remove_node dl index fuel :
  reachable dl -> 0 <= index < size dl ->
  (Z.to_nat (capacity dl) <= fuel)%nat ->
  exists a dl' released m all,
    search dl index = Ok (Some a) /\
    remove_node dl [] (Some a) = Ok (dl', released) /\
    DLinkedList_free fuel dl' released = Some (Ok (m, all)) /\
    NoDup all /\ all ≡ₚ seq 0 (length (nodes dl)).
Proof.
  intros Hr Hi Hfuel. destruct (reachable_pool dl Hr) as [chain H].
  pose proof (pool_capacity _ _ H) as Hcap. pose proof (pool_size _ _ H).
  pose proof (pool_linked _ _ H) as [Hnd _].
  destruct (search_spec dl chain index H Hi) as (Hsearch & _).
  destruct (lookup_lt_is_Some_2 chain (Z.to_nat index)) as [a Ha]; [lia|].
  destruct (remove_node_spec dl chain index a H Hi Ha)
    as (dl' & released & Hrm & _ & _ & _ & _ & chain' & Hl' & Hf' & Hc' & _ & Hperm).
  assert (Hnd' : NoDup (released ++ chain')) by (by rewrite Hperm).
  apply NoDup_app in Hnd' as (_ & Hdisj & _).
  assert (Hlen : (length released + length chain' = length chain)%nat).
  { rewrite <- length_app. by rewrite Hperm. }
  destruct (free_loop_spec chain' dl' released fuel) as (d & Hrun & _).
  - done.
  - rewrite Hf'. by destruct chain'.
  - done.
  - apply Forall_forall. intros x Hx Hin. by apply (Hdisj x).
  - lia.
  - exists a, dl', released, (nodes d), (released ++ chain').
    rewrite Hsearch, Ha. unfold DLinkedList_free. rewrite Hrun.
    split_and!; try done.
    + by rewrite Hperm.
    + rewrite Hperm. by apply pool_covers.
Qed.

(** ** The claims *)

(** C4 (as amended): in every reachable state [list_start == front]; no
    pooled cell lies before [list_start]; the cells after [list_end] are the
    pool from position [max(size, 1)] on, so there are [capacity - size] of
    them when [size >= 1] and [capacity - 1] when [size == 0] (the cell at
    [list_end] is then itself unused). *)
Theorem window_anchored_at_front dl :
  reachable dl ->
  list_start dl = front dl /\
  spares_before dl = [] /\
  Z.of_nat (length (pool_cells dl)) = capacity dl /\
  spares_after dl = drop (Z.to_nat (Z.max (size dl) 1)) (pool_cells dl) /\
  Z.of_nat (length (spares_after dl)) = capacity dl - Z.max (size dl) 1.
Proof.
  intros Hr. destruct (reachable_pool dl Hr) as [chain H].
  pose proof (pool_capacity _ _ H) as Hcap.
  pose proof (pool_size _ _ H) as Hs.
  rewrite (spares_after_chain _ _ H), (pool_cells_chain _ _ H).
  split_and!.
  - by rewrite (pool_start _ _ H), (pool_front _ _ H).
  - by eapply spares_before_nil.
  - lia.
  - done.
  - pose proof (pool_bounds _ _ H). rewrite length_drop. lia.
Qed.

(** C5: in every state reachable from [DLinkedList_new] through the public
    functions, [0 <= size <= capacity] and [capacity >= 1]. *)
Theorem size_capacity_invariant dl :
  reachable dl -> 0 <= size dl <= capacity dl /\ 1 <= capacity dl.
Proof.
  intros Hr. destruct (reachable_pool dl Hr) as [chain H].
  pose proof (pool_size _ _ H). pose proof (pool_bounds _ _ H). lia.
Qed.

(** C6: for a reachable container and [0 <= index < size], [search] returns
    [list_start] for index [0] and [list_end] for index [size - 1]; any other
    index goes to [split_search], which walks [next] from [list_start] when
    [index < size / 2] and [prev] from [list_end] otherwise; in every case
    the cell returned is the one [index] steps of [next] from [list_start]. *)
Theorem search_midpoint_split dl index :
  reachable dl -> 0 <= index < size dl ->
  exists a,
    search dl index = Ok (Some a) /\
    follow next (nodes dl) (Z.to_nat index) (list_start dl) = Ok (Some a) /\
    (index = 0 -> list_start dl = Some a) /\
    (index = size dl - 1 -> list_end dl = Some a) /\
    (index <> 0 -> index <> size dl - 1 ->
       search dl index = split_search dl index /\
       (index < Z.quot (size dl) 2 ->
          split_search dl index
          = follow next (nodes dl) (Z.to_nat index) (list_start dl)) /\
       (Z.quot (size dl) 2 <= index ->
          split_search dl index
          = follow prev (nodes dl) (Z.to_nat (size dl - 1 - index))
              (list_end dl))).
Proof.
  intros Hr Hi. destruct (reachable_pool dl Hr) as [chain H].
  pose proof (pool_capacity _ _ H) as Hcap.
  pose proof (pool_size _ _ H) as Hs.
  destruct (search_spec dl chain index H Hi) as (Hsearch & Hsplit & Hfwd & Hbwd).
  destruct (pool_cell dl chain (Z.to_nat index) H) as (a & c & Ha & _); [lia|].
  rewrite Ha in Hsearch, Hsplit, Hfwd, Hbwd.
  exists a. split_and!; try done.
  - intros ->. by rewrite (pool_start _ _ H).
  - intros ->. rewrite (pool_end _ _ H), <- Ha. f_equal. lia.
  - intros Hne Hne'. split_and!.
    + unfold search.
      rewrite (proj2 (Z.leb_le 0 index)), (proj2 (Z.ltb_lt index (size dl))) by lia.
      simpl. destruct (Z.eqb_spec index 0); [done|].
      by destruct (Z.eqb_spec index (size dl - 1)).
    + intros Hlt. unfold split_search.
      rewrite (proj2 (Z.leb_le 0 index)), (proj2 (Z.ltb_lt index (size dl))) by lia.
      simpl. by rewrite (proj2 (Z.ltb_lt _ _) Hlt).
    + intros Hge. unfold split_search.
      rewrite (proj2 (Z.leb_le 0 index)), (proj2 (Z.ltb_lt index (size dl))) by lia.
      simpl. by rewrite (proj2 (Z.ltb_ge _ _) Hge).
Qed.

(** C8: in every reachable state, [DLinkedList_get] fails its assertions
    exactly when [index < 0] or [index >= size] and returns an element
    otherwise; [DLinkedList_first] and [DLinkedList_last] return [NULL] on an
    empty container without failing, and the elements of the cells at
    [list_start] and [list_end] on a non-empty one. *)
Theorem get_first_last_preconditions dl :
  reachable dl ->
  (forall index,
     DLinkedList_get dl index = Fail AssertionFailed
     <-> index < 0 \/ size dl <= index) /\
  (forall index, 0 <= index < size dl ->
     exists v, DLinkedList_get dl index = Ok v) /\
  (size dl = 0 ->
     DLinkedList_first dl = Ok None /\ DLinkedList_last dl = Ok None) /\
  (0 < size dl ->
     exists cs ce,
       load (nodes dl) (list_start dl) = Ok cs /\
       load (nodes dl) (list_end dl) = Ok ce /\
       DLinkedList_first dl = Ok (elem cs) /\
       DLinkedList_last dl = Ok (elem ce)).
Proof.
  intros Hr. destruct (reachable_pool dl Hr) as [chain H].
  pose proof (pool_capacity _ _ H) as Hcap.
  pose proof (pool_size _ _ H) as Hs.
  split_and!.
  - intros index. split; [|apply get_out_of_range].
    intros Hfail. destruct (decide (0 <= index < size dl)) as [Hi|Hi]; [|lia].
    destruct (get_spec dl chain index H Hi) as (a & c & _ & _ & Hget).
    congruence.
  - intros index Hi.
    destruct (get_spec dl chain index H Hi) as (a & c & _ & _ & Hget). eauto.
  - intros H0. unfold DLinkedList_first, DLinkedList_last. by rewrite H0.
  - intros Hpos.
    destruct (pool_cell dl chain 0 H) as (s & cs & Hs0 & Hcs & _); [lia|].
    destruct (pool_cell dl chain (Z.to_nat (size dl) - 1) H)
      as (t & ce & Ht & Hce & _); [lia|].
    exists cs, ce. unfold DLinkedList_first, DLinkedList_last.
    destruct (Z.eqb_spec (size dl) 0); [lia|].
    rewrite (pool_start _ _ H), (pool_end _ _ H), Hs0, Ht.
    by rewrite (load_Some _ _ _ Hcs), (load_Some _ _ _ Hce).
Qed.

(** C9 (as amended): for every [0 <= hint < INT_MAX], [DLinkedList_new]
    returns a container with [size == 0] and [capacity == max(hint, 1)]; it
    allocates exactly that many cells, all with a [NULL] element, linked into
    one chain that runs along [next] from [front] to [tail] and along [prev]
    from [tail] back to [front]; [list_start] and [list_end] are [front]. *)
Theorem DLinkedList_new_pool hint :
  0 <= hint < INT_MAX ->
  exists dl : dlinkedlist_t A,
    DLinkedList_new hint = Ok dl /\
    size dl = 0 /\ capacity dl = Z.max hint 1 /\
    length (nodes dl) = Z.to_nat (Z.max hint 1) /\
    Forall (fun c => elem c = None) (nodes dl) /\
    pool_cells dl = reverse (seq 0 (Z.to_nat (Z.max hint 1))) /\
    chase prev (nodes dl) (S (length (nodes dl))) (tail dl)
      = seq 0 (Z.to_nat (Z.max hint 1)) /\
    front dl = Some (Z.to_nat (Z.max hint 1) - 1)%nat /\
    tail dl = Some 0%nat /\
    list_start dl = front dl /\ list_end dl = front dl.
Proof.
  intros Hh.
  destruct (DLinkedList_new_spec hint Hh)
    as (dl & Hnew & H & Hsz & Hcap & Hnull).
  set (n := Z.to_nat (Z.max hint 1)) in *.
  assert (Hn : (1 <= n)%nat) by lia.
  assert (Hlen : length (reverse (seq 0 n)) = n) by (by rewrite length_reverse, length_seq).
  assert (Hfront : reverse (seq 0 n) !! 0%nat = Some (n - 1)%nat).
  { rewrite reverse_lookup; rewrite length_seq; [|lia].
    rewrite lookup_seq. split_and!; lia. }
  assert (Hlast : reverse (seq 0 n) !! (n - 1)%nat = Some 0%nat).
  { rewrite reverse_lookup; rewrite length_seq; [|lia].
    rewrite lookup_seq. split_and!; lia. }
  exists dl. split_and!; try done.
  - by rewrite (pool_all _ _ H).
  - by apply pool_cells_chain.
  - rewrite (pool_tail _ _ H), Hlen.
    rewrite (chase_prev _ (reverse (seq 0 n)))
      by (apply (pool_linked _ _ H) || rewrite ?(pool_all _ _ H); lia).
    replace (S (n - 1)) with (length (reverse (seq 0 n))) by lia.
    by rewrite take_ge, reverse_involutive by lia.
  - by rewrite (pool_front _ _ H).
  - by rewrite (pool_tail _ _ H), Hlen.
  - by rewrite (pool_start _ _ H), (pool_front _ _ H).
  - rewrite (pool_end _ _ H), (pool_front _ _ H), Hsz. done.
Qed.

(** C10: [DLinkedList_remove], [DLinkedList_removehi] and
    [DLinkedList_removelo] leave the container as it is: the cells (hence
    every stored element and link), [front], [tail], [list_start],
    [list_end], [capacity] and [size]. *)
Theorem removals_are_noops dl index :
  DLinkedList_remove dl index = dl /\
  DLinkedList_removehi dl = dl /\
  DLinkedList_removelo dl = dl /\
  forall dl',
    dl' = DLinkedList_remove dl index \/ dl' = DLinkedList_removehi dl \/
    dl' = DLinkedList_removelo dl ->
    nodes dl' = nodes dl /\ front dl' = front dl /\ tail dl' = tail dl /\
    list_start dl' = list_start dl /\ list_end dl' = list_end dl /\
    capacity dl' = capacity dl /\ size dl' = size dl.
Proof.
  split_and!; try reflexivity.
  intros dl' [->|[->| ->]]; by split_and!.
Qed.

End Proofs.

Local Open Scope string_scope.

(** * Concrete runs *)


Lemma mixed_state_run : scenario 2 mixed = Ok mixed_state.
Proof. evaluate. Qed.

Lemma fresh_1_run : scenario 1 [] = Ok fresh_1.
Proof. evaluate. Qed.

(** The mixed run ends with capacity 4 and four elements, read back as
    "w", [NULL], "y", "z": the first append put "x" in the cell at [tail],
    where the second append then put "y". *)
Lemma mixed_state_to_list :
  capacity mixed_state = 4 /\ DLinkedList_length mixed_state = 4 /\
  to_list mixed_state = [Some "w"; None; Some "y"; Some "z"].
Proof. split_and!; evaluate. Qed.

(** C1: with hint [2], the first append stores "a" in the cell at [tail],
    which is not the cell at [list_end]; the cell at [list_end] keeps [NULL].
    After appending "a", "b", "c" the length is 3, [DLinkedList_last] is "c"
    and [DLinkedList_get(1)] is "b", but [DLinkedList_first] is [NULL]. *)
Theorem append_abc_hint_2 :
  exists dl1 dl3 : dlinkedlist_t string,
    scenario 2 (append_all [Some "a"]) = Ok dl1 /\
    size dl1 = 1 /\
    list_end dl1 = list_start dl1 /\ tail dl1 <> list_end dl1 /\
    elem_at dl1 (list_end dl1) = Ok None /\
    elem_at dl1 (tail dl1) = Ok (Some "a") /\
    scenario 2 (append_all [Some "a"; Some "b"; Some "c"]) = Ok dl3 /\
    DLinkedList_length dl3 = 3 /\
    DLinkedList_first dl3 = Ok None /\
    DLinkedList_last dl3 = Ok (Some "c") /\
    DLinkedList_get dl3 1 = Ok (Some "b").
Proof.
  do 2 eexists. split_and!.
  - evaluate.
  - evaluate.
  - evaluate.
  - discriminate.
  - evaluate.
  - evaluate.
  - evaluate.
  - evaluate.
  - evaluate.
  - evaluate.
  - evaluate.
Qed.

(** C2: with hint [3], appending "a", "b", "c", "d" brings the capacity to
    4, and [DLinkedList_get] returns "b", "c", "d" at 1, 2, 3, but [NULL]
    at index 0. *)
Theorem append_abcd_hint_3 :
  exists dl : dlinkedlist_t string,
    scenario 3 (append_all [Some "a"; Some "b"; Some "c"; Some "d"]) = Ok dl /\
    capacity dl = 4 /\ size dl = 4 /\
    DLinkedList_get dl 0 = Ok None /\
    DLinkedList_get dl 1 = Ok (Some "b") /\
    DLinkedList_get dl 2 = Ok (Some "c") /\
    DLinkedList_get dl 3 = Ok (Some "d").
Proof.
  eexists. split_and!.
  - evaluate.
  - evaluate.
  - evaluate.
  - evaluate.
  - evaluate.
  - evaluate.
  - evaluate.
Qed.

(** C3: with hint [2], the first prepend succeeds and the second one fails
    the assertion [node != NULL]: no cell lies before [list_start]. *)
Theorem prepend_twice_hint_2 :
  exists dl1 : dlinkedlist_t string,
    scenario 2 (prepend_all [Some "a"]) = Ok dl1 /\
    size dl1 = 1 /\ capacity dl1 = 2 /\
    DLinkedList_prepend dl1 (Some "b") = Fail AssertionFailed /\
    scenario 2 (prepend_all [Some "a"; Some "b"]) = Fail AssertionFailed.
Proof.
  eexists. split_and!.
  - evaluate.
  - evaluate.
  - evaluate.
  - evaluate.
  - evaluate.
Qed.

(** C7: on a fresh container with hint [2], [DLinkedList_set] at index 0
    (the size) does what [DLinkedList_append] does and the size becomes 1,
    but [DLinkedList_get(0)] then returns [NULL], not the element set. *)
Theorem set_at_size_hint_2 :
  exists dl0 dl1 : dlinkedlist_t string,
    DLinkedList_new 2 = Ok dl0 /\ size dl0 = 0 /\
    DLinkedList_set dl0 (Some "a") 0 = Ok dl1 /\
    DLinkedList_append dl0 (Some "a") = Ok dl1 /\
    size dl1 = 1 /\
    DLinkedList_get dl1 0 = Ok None.
Proof.
  do 2 eexists. split_and!.
  - evaluate.
  - evaluate.
  - evaluate.
  - evaluate.
  - evaluate.
  - evaluate.
Qed.

(** C4, as stated, fails on the state [DLinkedList_new(1)] returns: its
    capacity is 1 and its size 0, and no cell lies after [list_end]. *)
Lemma fresh_spare_not_after_list_end :
  reachable fresh_1 /\
  capacity fresh_1 - size fresh_1 = 1 /\
  spares_after fresh_1 = [] /\
  ~ (forall dl : dlinkedlist_t string,
       reachable dl ->
       list_start dl = front dl /\
       spares_before dl = [] /\
       Z.of_nat (length (spares_after dl)) = capacity dl - size dl).
Proof.
  assert (Hr : reachable fresh_1) by (apply (scenario_reachable 1 []); evaluate).
  split_and!; [done|evaluate|evaluate|].
  intros H. destruct (H fresh_1 Hr) as (_ & _ & Hn). discriminate Hn.
Qed.

Lemma window_anchored_at_front_witness :
  reachable mixed_state /\
  (list_start mixed_state = front mixed_state /\
   spares_before mixed_state = [] /\
   Z.of_nat (length (pool_cells mixed_state)) = capacity mixed_state /\
   spares_after mixed_state
     = drop (Z.to_nat (Z.max (size mixed_state) 1)) (pool_cells mixed_state) /\
   Z.of_nat (length (spares_after mixed_state))
     = capacity mixed_state - Z.max (size mixed_state) 1).
Proof.
  assert (Hr : reachable mixed_state)
    by (apply (scenario_reachable 2 mixed); evaluate).
  split; [exact Hr|]. exact (window_anchored_at_front mixed_state Hr).
Defined.

Lemma size_capacity_invariant_witness :
  reachable mixed_state /\
  (0 <= size mixed_state <= capacity mixed_state /\ 1 <= capacity mixed_state).
Proof.
  assert (Hr : reachable mixed_state)
    by (apply (scenario_reachable 2 mixed); evaluate).
  split; [exact Hr|]. exact (size_capacity_invariant mixed_state Hr).
Defined.

Lemma search_midpoint_split_witness :
  reachable mixed_state /\ 0 <= 2 < size mixed_state /\
  exists a,
    search mixed_state 2 = Ok (Some a) /\
    follow next (nodes mixed_state) (Z.to_nat 2) (list_start mixed_state)
      = Ok (Some a) /\
    (2 = 0 -> list_start mixed_state = Some a) /\
    (2 = size mixed_state - 1 -> list_end mixed_state = Some a) /\
    (2 <> 0 -> 2 <> size mixed_state - 1 ->
       search mixed_state 2 = split_search mixed_state 2 /\
       (2 < Z.quot (size mixed_state) 2 ->
          split_search mixed_state 2
          = follow next (nodes mixed_state) (Z.to_nat 2)
              (list_start mixed_state)) /\
       (Z.quot (size mixed_state) 2 <= 2 ->
          split_search mixed_state 2
          = follow prev (nodes mixed_state)
              (Z.to_nat (size mixed_state - 1 - 2)) (list_end mixed_state))).
Proof.
  assert (Hr : reachable mixed_state)
    by (apply (scenario_reachable 2 mixed); evaluate).
  assert (Hi : 0 <= 2 < size mixed_state) by (simpl; lia).
  split; [exact Hr|]. split; [exact Hi|].
  exact (search_midpoint_split mixed_state 2 Hr Hi).
Defined.

Lemma get_first_last_preconditions_witness :
  reachable mixed_state /\
  ((forall index,
      DLinkedList_get mixed_state index = Fail AssertionFailed
      <-> index < 0 \/ size mixed_state <= index) /\
   (forall index, 0 <= index < size mixed_state ->
      exists v, DLinkedList_get mixed_state index = Ok v) /\
   (size mixed_state = 0 ->
      DLinkedList_first mixed_state = Ok None /\
      DLinkedList_last mixed_state = Ok None) /\
   (0 < size mixed_state ->
      exists cs ce,
        load (nodes mixed_state) (list_start mixed_state) = Ok cs /\
        load (nodes mixed_state) (list_end mixed_state) = Ok ce /\
        DLinkedList_first mixed_state = Ok (elem cs) /\
        DLinkedList_last mixed_state = Ok (elem ce))).
Proof.
  assert (Hr : reachable mixed_state)
    by (apply (scenario_reachable 2 mixed); evaluate).
  split; [exact Hr|]. exact (get_first_last_preconditions mixed_state Hr).
Defined.

(** C9, as stated, fails at [hint = INT_MAX]: [DLinkedList_new] asserts
    [hint < INT_MAX]. *)
Lemma DLinkedList_new_INT_MAX :
  0 <= INT_MAX /\
  DLinkedList_new (A:=string) INT_MAX = Fail AssertionFailed /\
  ~ (forall hint, 0 <= hint ->
       exists dl : dlinkedlist_t string,
         DLinkedList_new hint = Ok dl /\
         size dl = 0 /\ capacity dl = Z.max hint 1).
Proof.
  split_and!; [done|evaluate|].
  intros H. destruct (H INT_MAX) as (dl & Hnew & _); [done|]. discriminate Hnew.
Qed.

Lemma DLinkedList_new_pool_witness :
  0 <= 3 < INT_MAX /\
  exists dl : dlinkedlist_t string,
    DLinkedList_new 3 = Ok dl /\
    size dl = 0 /\ capacity dl = Z.max 3 1 /\
    length (nodes dl) = Z.to_nat (Z.max 3 1) /\
    Forall (fun c => elem c = None) (nodes dl) /\
    pool_cells dl = reverse (seq 0 (Z.to_nat (Z.max 3 1))) /\
    chase prev (nodes dl) (S (length (nodes dl))) (tail dl)
      = seq 0 (Z.to_nat (Z.max 3 1)) /\
    front dl = Some (Z.to_nat (Z.max 3 1) - 1)%nat /\
    tail dl = Some 0%nat /\
    list_start dl = front dl /\ list_end dl = front dl.
Proof.
  assert (Hh : 0 <= 3 < INT_MAX) by (unfold INT_MAX; lia).
  split; [exact Hh|]. exact (DLinkedList_new_pool 3 Hh).
Defined.

(** * Instances of the further properties *)

Lemma DLinkedList_free_releases_pool_witness :
  (reachable mixed_state) /\
  ((Z.to_nat (capacity mixed_state) <= 4%nat)%nat) /\
  (DLinkedList_free 4%nat mixed_state []
    = Some (Ok (replicate (length (nodes mixed_state)) (mk_node None None None),
                pool_cells mixed_state)) /\
    NoDup (pool_cells mixed_state) /\
    pool_cells mixed_state ≡ₚ seq 0 (length (nodes mixed_state))).
Proof.
  assert (H1 : reachable mixed_state)
    by (apply (scenario_reachable 2 mixed); evaluate).
  assert (H2 : (Z.to_nat (capacity mixed_state) <= 4%nat)%nat)
    by (simpl; lia).
  split; [exact H1|]. split; [exact H2|].
  exact (DLinkedList_free_releases_pool mixed_state 4%nat H1 H2).
Defined.

Lemma remove_node_deletes_element_witness :
  (reachable mixed_state) /\
  (0 <= 1 < size mixed_state) /\
  (exists a dl' released,
      search mixed_state 1 = Ok (Some a) /\
      remove_node mixed_state [] (Some a) = Ok (dl', released) /\
      DLinkedList_length dl' = DLinkedList_length mixed_state - 1 /\
      to_list dl' = delete (Z.to_nat 1) (to_list mixed_state) /\
      (1 = 0 \/ 1 = size mixed_state - 1 ->
         released = [] /\ capacity dl' = capacity mixed_state /\ nodes dl' = nodes mixed_state) /\
      (0 < 1 < size mixed_state - 1 ->
         released = [a] /\ capacity dl' = capacity mixed_state - 1)).
Proof.
  assert (H1 : reachable mixed_state)
    by (apply (scenario_reachable 2 mixed); evaluate).
  assert (H2 : 0 <= 1 < size mixed_state)
    by (unfold INT_MAX; simpl; lia).
  split; [exact H1|]. split; [exact H2|].
  exact (remove_node_deletes_element mixed_state 1 H1 H2).
Defined.

Lemma remove_node_then_insert_is_set_witness :
  (reachable mixed_state) /\
  (2 <= size mixed_state) /\
  (exists dl_set0 dl_setn,
      DLinkedList_set mixed_state (Some "v") 0 = Ok dl_set0 /\
      DLinkedList_set mixed_state (Some "v") (size mixed_state - 1) = Ok dl_setn /\
      (do r <- remove_node mixed_state [] (list_start mixed_state);
       DLinkedList_prepend (fst r) (Some "v")) = Ok dl_set0 /\
      (do r <- remove_node mixed_state [] (list_end mixed_state);
       DLinkedList_append (fst r) (Some "v")) = Ok dl_setn /\
      length (nodes dl_set0) = length (nodes mixed_state) /\
      length (nodes dl_setn) = length (nodes mixed_state)).
Proof.
  assert (H1 : reachable mixed_state)
    by (apply (scenario_reachable 2 mixed); evaluate).
  assert (H2 : 2 <= size mixed_state)
    by (unfold INT_MAX; simpl; lia).
  split; [exact H1|]. split; [exact H2|].
  exact (remove_node_then_insert_is_set mixed_state (Some "v") H1 H2).
Defined.

Lemma append_succeeds_below_INT_MAX_witness :
  (reachable mixed_state) /\
  ((size mixed_state < INT_MAX ->
       exists dl',
         DLinkedList_append mixed_state (Some "v") = Ok dl' /\ reachable dl' /\
         DLinkedList_length dl' = DLinkedList_length mixed_state + 1 /\
         capacity dl' = Z.max (capacity mixed_state) (size mixed_state + 1) /\
         Z.of_nat (length (nodes dl')) = capacity dl') /\
    (INT_MAX <= size mixed_state -> DLinkedList_append mixed_state (Some "v") = Fail SignedOverflow)).
Proof.
  assert (H1 : reachable mixed_state)
    by (apply (scenario_reachable 2 mixed); evaluate).
  split; [exact H1|].
  exact (append_succeeds_below_INT_MAX mixed_state (Some "v") H1).
Defined.

Lemma append_then_get_witness :
  (reachable mixed_state) /\
  (1 <= size mixed_state < INT_MAX) /\
  (exists dl',
      DLinkedList_append mixed_state (Some "v") = Ok dl' /\
      DLinkedList_get dl' (size mixed_state) = Ok (Some "v") /\
      DLinkedList_last dl' = Ok (Some "v") /\
      forall index, 0 <= index < size mixed_state ->
        DLinkedList_get dl' index = DLinkedList_get mixed_state index).
Proof.
  assert (H1 : reachable mixed_state)
    by (apply (scenario_reachable 2 mixed); evaluate).
  assert (H2 : 1 <= size mixed_state < INT_MAX)
    by (unfold INT_MAX; simpl; lia).
  split; [exact H1|]. split; [exact H2|].
  exact (append_then_get mixed_state (Some "v") H1 H2).
Defined.

Lemma set_then_get_witness :
  (reachable mixed_state) /\
  (0 <= 1 < size mixed_state) /\
  (exists dl',
      DLinkedList_set mixed_state (Some "v") 1 = Ok dl' /\
      DLinkedList_get dl' 1 = Ok (Some "v") /\
      (forall j, j <> 1 -> DLinkedList_get dl' j = DLinkedList_get mixed_state j) /\
      size dl' = size mixed_state /\ capacity dl' = capacity mixed_state /\
      front dl' = front mixed_state /\ tail dl' = tail mixed_state /\
      list_start dl' = list_start mixed_state /\ list_end dl' = list_end mixed_state /\
      length (nodes dl') = length (nodes mixed_state)).
Proof.
  assert (H1 : reachable mixed_state)
    by (apply (scenario_reachable 2 mixed); evaluate).
  assert (H2 : 0 <= 1 < size mixed_state)
    by (unfold INT_MAX; simpl; lia).
  split; [exact H1|]. split; [exact H2|].
  exact (set_then_get mixed_state (Some "v") 1 H1 H2).
Defined.

Lemma prepend_needs_empty_or_full_witness :
  (reachable mixed_state) /\
  (size mixed_state < INT_MAX) /\
  (((exists dl', DLinkedList_prepend mixed_state (Some "v") = Ok dl')
     <-> size mixed_state = 0 \/ size mixed_state = capacity mixed_state) /\
    (0 < size mixed_state < capacity mixed_state ->
     DLinkedList_prepend mixed_state (Some "v") = Fail AssertionFailed)).
Proof.
  assert (H1 : reachable mixed_state)
    by (apply (scenario_reachable 2 mixed); evaluate).
  assert (H2 : size mixed_state < INT_MAX)
    by (unfold INT_MAX; simpl; lia).
  split; [exact H1|]. split; [exact H2|].
  exact (prepend_needs_empty_or_full mixed_state (Some "v") H1 H2).
Defined.

Lemma prepend_then_get_witness :
  (reachable mixed_state) /\
  (size mixed_state < INT_MAX) /\
  (size mixed_state = 0 \/ size mixed_state = capacity mixed_state) /\
  (exists dl',
      DLinkedList_prepend mixed_state (Some "v") = Ok dl' /\
      DLinkedList_length dl' = DLinkedList_length mixed_state + 1 /\
      capacity dl' = Z.max (capacity mixed_state) (size mixed_state + 1) /\
      DLinkedList_get dl' 0 = Ok (Some "v") /\
      DLinkedList_first dl' = Ok (Some "v") /\
      forall index, 0 <= index < size mixed_state ->
        DLinkedList_get dl' (index + 1) = DLinkedList_get mixed_state index).
Proof.
  assert (H1 : reachable mixed_state)
    by (apply (scenario_reachable 2 mixed); evaluate).
  assert (H2 : size mixed_state < INT_MAX)
    by (unfold INT_MAX; simpl; lia).
  assert (H3 : size mixed_state = 0 \/ size mixed_state = capacity mixed_state)
    by (right; reflexivity).
  split; [exact H1|]. split; [exact H2|]. split; [exact H3|].
  exact (prepend_then_get mixed_state (Some "v") H1 H2 H3).
Defined.

Lemma first_last_are_get_witness :
  (reachable mixed_state) /\
  (0 < size mixed_state) /\
  (DLinkedList_first mixed_state = DLinkedList_get mixed_state 0 /\
    DLinkedList_last mixed_state = DLinkedList_get mixed_state (size mixed_state - 1)).
Proof.
  assert (H1 : reachable mixed_state)
    by (apply (scenario_reachable 2 mixed); evaluate).
  assert (H2 : 0 < size mixed_state)
    by (unfold INT_MAX; simpl; lia).
  split; [exact H1|]. split; [exact H2|].
  exact (first_last_are_get mixed_state H1 H2).
Defined.

Lemma appends_read_back_witness :
  (0 <= 2 < INT_MAX) /\
  (1 + Z.of_nat (length [Some "b"; Some "c"]) <= INT_MAX) /\
  (exists dl,
      scenario 2 (append_all (Some "a" :: [Some "b"; Some "c"])) = Ok dl /\
      DLinkedList_length dl = 1 + Z.of_nat (length [Some "b"; Some "c"]) /\
      capacity dl = Z.max 2 (1 + Z.of_nat (length [Some "b"; Some "c"])) /\
      DLinkedList_get dl 0 = Ok (if (2 <=? 1)%Z then Some "a" else None) /\
      forall i v, [Some "b"; Some "c"] !! i = Some v ->
        DLinkedList_get dl (1 + Z.of_nat i) = Ok v).
Proof.
  assert (H1 : 0 <= 2 < INT_MAX)
    by (unfold INT_MAX; simpl; lia).
  assert (H2 : 1 + Z.of_nat (length [Some "b"; Some "c"]) <= INT_MAX)
    by (unfold INT_MAX; simpl; lia).
  split; [exact H1|]. split; [exact H2|].
  exact (appends_read_back 2 (Some "a") ([Some "b"; Some "c"]) H1 H2).
Defined.

Lemma prepends_read_back_witness :
  (0 <= 1 <= 1) /\
  (1 + Z.of_nat (length [Some "b"; Some "c"]) <= INT_MAX) /\
  (exists dl,
      scenario 1 (prepend_all (Some "a" :: [Some "b"; Some "c"])) = Ok dl /\
      DLinkedList_length dl = 1 + Z.of_nat (length [Some "b"; Some "c"]) /\
      capacity dl = 1 + Z.of_nat (length [Some "b"; Some "c"]) /\
      forall i v, reverse (Some "a" :: [Some "b"; Some "c"]) !! i = Some v ->
        DLinkedList_get dl (Z.of_nat i) = Ok v).
Proof.
  assert (H1 : 0 <= 1 <= 1)
    by (unfold INT_MAX; simpl; lia).
  assert (H2 : 1 + Z.of_nat (length [Some "b"; Some "c"]) <= INT_MAX)
    by (unfold INT_MAX; simpl; lia).
  split; [exact H1|]. split; [exact H2|].
  exact (prepends_read_back 1 (Some "a") ([Some "b"; Some "c"]) H1 H2).
Defined.

Lemma allocated_cells_are_the_pool_witness :
  (reachable mixed_state) /\
  (Z.of_nat (length (nodes mixed_state)) = capacity mixed_state /\
    forall a, (a < length (nodes mixed_state))%nat -> a ∈ pool_cells mixed_state).
Proof.
  assert (H1 : reachable mixed_state)
    by (apply (scenario_reachable 2 mixed); evaluate).
  split; [exact H1|].
  exact (allocated_cells_are_the_pool mixed_state H1).
Defined.

Lemma calls_only_grow_witness :
  (reachable mixed_state) /\
  (exec (Append (Some "v")) mixed_state = Ok mixed_then_v) /\
  (size mixed_state <= size mixed_then_v <= size mixed_state + 1 /\
    capacity mixed_state <= capacity mixed_then_v <= capacity mixed_state + 1 /\
    (capacity mixed_state < capacity mixed_then_v ->
       size mixed_state = capacity mixed_state /\ size mixed_then_v = size mixed_state + 1) /\
    Z.of_nat (length (nodes mixed_then_v)) - Z.of_nat (length (nodes mixed_state))
    = capacity mixed_then_v - capacity mixed_state).
Proof.
  assert (H1 : reachable mixed_state)
    by (apply (scenario_reachable 2 mixed); evaluate).
  assert (H2 : exec (Append (Some "v")) mixed_state = Ok mixed_then_v)
    by (evaluate).
  split; [exact H1|]. split; [exact H2|].
  exact (calls_only_grow (Append (Some "v")) mixed_state mixed_then_v H1 H2).
Defined.

Lemma empty_is_new_witness :
  (reachable fresh_1) /\
  (size fresh_1 = 0) /\
  (exists hint, DLinkedList_new hint = Ok fresh_1).
Proof.
  assert (H1 : reachable fresh_1)
    by (apply (scenario_reachable 1 []); evaluate).
  assert (H2 : size fresh_1 = 0)
    by (reflexivity).
  split; [exact H1|]. split; [exact H2|].
  exact (empty_is_new fresh_1 H1 H2).
Defined.

Lemma pool_linked_both_ways_witness :
  (reachable mixed_state) /\
  (chase prev (nodes mixed_state) (S (length (nodes mixed_state))) (tail mixed_state)
    = reverse (pool_cells mixed_state) /\
    follow next (nodes mixed_state) (Z.to_nat (Z.max (size mixed_state) 1 - 1)) (list_start mixed_state)
    = Ok (list_end mixed_state) /\
    follow prev (nodes mixed_state) (Z.to_nat (Z.max (size mixed_state) 1 - 1)) (list_end mixed_state)
    = Ok (list_start mixed_state)).
Proof.
  assert (H1 : reachable mixed_state)
    by (apply (scenario_reachable 2 mixed); evaluate).
  split; [exact H1|].
  exact (pool_linked_both_ways mixed_state H1).
Defined.

Lemma set_fails_outside_range_witness :
  (reachable mixed_state) /\
  (size mixed_state < INT_MAX) /\
  ((DLinkedList_set mixed_state (Some "v") 1 = Fail AssertionFailed
     <-> 1 < 0 \/ size mixed_state < 1) /\
    (0 <= 1 <= size mixed_state ->
     exists dl', DLinkedList_set mixed_state (Some "v") 1 = Ok dl' /\ reachable dl')).
Proof.
  assert (H1 : reachable mixed_state)
    by (apply (scenario_reachable 2 mixed); evaluate).
  assert (H2 : size mixed_state < INT_MAX)
    by (unfold INT_MAX; simpl; lia).
  split; [exact H1|]. split; [exact H2|].
  exact (set_fails_outside_range mixed_state (Some "v") 1 H1 H2).
Defined.

Lemma split_search_is_search_witness :
  (reachable mixed_state) /\
  (0 <= 1 < size mixed_state) /\
  (split_search mixed_state 1 = search mixed_state 1).
Proof.
  assert (H1 : reachable mixed_state)
    by (apply (scenario_reachable 2 mixed); evaluate).
  assert (H2 : 0 <= 1 < size mixed_state)
    by (unfold INT_MAX; simpl; lia).
  split; [exact H1|]. split; [exact H2|].
  exact (split_search_is_search mixed_state 1 H1 H2).
Defined.

Lemma free_after_remove_node_witness :
  (reachable mixed_state) /\
  (0 <= 1 < size mixed_state) /\
  ((Z.to_nat (capacity mixed_state) <= 4%nat)%nat) /\
  (exists a dl' released m all,
      search mixed_state 1 = Ok (Some a) /\
      remove_node mixed_state [] (Some a) = Ok (dl', released) /\
      DLinkedList_free 4%nat dl' released = Some (Ok (m, all)) /\
      NoDup all /\ all ≡ₚ seq 0 (length (nodes mixed_state))).
Proof.
  assert (H1 : reachable mixed_state)
    by (apply (scenario_reachable 2 mixed); evaluate).
  assert (H2 : 0 <= 1 < size mixed_state)
    by (unfold INT_MAX; simpl; lia).
  assert (H3 : (Z.to_nat (capacity mixed_state) <= 4%nat)%nat)
    by (simpl; lia).
  split; [exact H1|]. split; [exact H2|]. split; [exact H3|].
  exact (free_after_remove_node mixed_state 1 4%nat H1 H2 H3).
Defined.

